(** * Grover search circuit builder: a shallow embedding of [python.py]

    The program builds a quantum circuit with three functions, [oracle],
    [diffuser] and [grover_search].  The circuit is an append-only sequence of
    operations; the builders are modelled in a state-and-exception monad over
    the circuit, so that a Python exception leaves behind whatever had been
    appended before it was raised.  The circuit methods the builders call
    ([h], [x], [mcx], [measure]) belong to the circuit library the source
    imports; they are modelled with the argument checks that library makes,
    since those checks decide what the builders do.  The meaning of a gate
    sequence is given separately, as a linear map on amplitude vectors. *)

From Stdlib Require Import ZArith List Ascii Bool Lia Ring.
From Stdlib Require Import Reals Lra.
Import ListNotations.

Set Implicit Arguments.

(** ** Python values and built-ins used by the source *)

Inductive exn := IndexError | OverflowError | TypeError | CircuitError.

Inductive result (A : Type) : Type :=
| Ok (a : A)
| Raise (e : exn).
Arguments Ok {A} a.
Arguments Raise {A} e.

Module Py.

(** Binary digits of a positive integer, most significant first. *)
Fixpoint bin_digits (p : positive) : list ascii :=
  match p with
  | xH => ["1"%char]
  | xO p' => bin_digits p' ++ ["0"%char]
  | xI p' => bin_digits p' ++ ["1"%char]
  end.

Definition zfill (width : nat) (s : list ascii) : list ascii :=
  repeat "0"%char (width - length s) ++ s.

(** [format(n, '0' + str(width) + 'b')]: sign-aware zero padding to a
    minimum total width; the result is never truncated. *)
Definition format_0b (n : Z) (width : nat) : list ascii :=
  match n with
  | Z0 => zfill width ["0"%char]
  | Zpos p => zfill width (bin_digits p)
  | Zneg p => "-"%char :: zfill (width - 1) (bin_digits p)
  end.

(** [enumerate(s)] *)
Definition enumerate (A : Type) (s : list A) : list (nat * A) :=
  combine (seq 0 (length s)) s.

(** A sequence of positions, as the builders receive it: a [range] object
    or a list.  Both can be measured, indexed and sliced, and a slice of a
    range is again a range. *)
Inductive sequence :=
| Range (n : nat)
| List (l : list nat).

(** [range(n)] *)
Definition range (n : nat) : sequence := Range n.

(** The elements, in iteration order. *)
Definition items (qs : sequence) : list nat :=
  match qs with
  | Range n => seq 0 n
  | List l => l
  end.

(** [len(qs)] *)
Definition len (qs : sequence) : nat := length (items qs).

(** [qs[i]] for a non-negative index [i] *)
Definition getitem (qs : sequence) (i : nat) : result nat :=
  match nth_error (items qs) i with
  | Some q => Ok q
  | None => Raise IndexError
  end.

(** [qs[-1]] *)
Definition getitem_last (qs : sequence) : result nat :=
  match items qs with
  | [] => Raise IndexError
  | _ :: _ => Ok (last (items qs) 0%nat)
  end.

(** [qs[:-1]] *)
Definition slice_init (qs : sequence) : sequence :=
  match qs with
  | Range n => Range (n - 1)
  | List l => List (removelast l)
  end.

End Py.

(** ** Double precision, as far as [int(math.sqrt(2**n))] needs it

    A positive finite binary64 number is [mant * 2^expo] with
    [2^52 <= mant < 2^53]; zero is [mant = 0].  Conversion from an integer
    rounds to nearest, ties to even, and raises [OverflowError] beyond the
    largest double; the square root is correctly rounded; [int] truncates. *)

Module Float64.
Local Open Scope Z_scope.

Record t := mk { mant : Z; expo : Z }.

(** [float(x)] for an integer [x >= 0] *)
Definition of_int (x : Z) : result t :=
  if x <=? 0 then Ok (mk 0 0) else
  let b := Z.log2 x in
  if b <=? 52 then Ok (mk (x * 2 ^ (52 - b)) (b - 52)) else
  let sh := b - 52 in
  let q := x / 2 ^ sh in
  let rem := x mod 2 ^ sh in
  let half := 2 ^ (sh - 1) in
  let q' := if (half <? rem) || ((rem =? half) && Z.odd q) then q + 1 else q in
  let f := if q' =? 2 ^ 53 then mk (2 ^ 52) (sh + 1) else mk q' sh in
  if 1023 <? expo f + 52 then Raise OverflowError else Ok f.

(** [math.sqrt(f)]: the mantissa is scaled to 105 or 106 bits so that its
    integer square root has 53 bits; the remainder decides the rounding
    (a tie cannot occur). *)
Definition sqrt (f : t) : t :=
  if mant f =? 0 then f else
  let k := if Z.even (expo f) then 52 else 53 in
  let m := mant f * 2 ^ k in
  let s := Z.sqrt m in
  let s' := if s <? m - s * s then s + 1 else s in
  mk s' ((expo f - k) / 2).

(** [int(f)] for [f >= 0] *)
Definition to_int (f : t) : Z :=
  if 0 <=? expo f then mant f * 2 ^ expo f else mant f / 2 ^ (- expo f).

End Float64.

(** [int(math.sqrt(2**n_qubits))] *)
Definition num_iterations (n_qubits : nat) : result Z :=
  match Float64.of_int (2 ^ Z.of_nat n_qubits) with
  | Ok f => Ok (Float64.to_int (Float64.sqrt f))
  | Raise e => Raise e
  end.

(** ** Circuits *)

Inductive gate :=
| H (q : nat)
| X (q : nat)
| MCX (controls : list nat) (target : nat).

Inductive instruction :=
| Gate (g : gate)
| Measure (qubit clbit : nat).

Record QuantumCircuit := mkQC {
  num_qubits : nat;
  num_clbits : nat;
  data : list instruction
}.

(** [QuantumCircuit(n, m)] *)
Definition new_circuit (n m : nat) : QuantumCircuit := mkQC n m [].

Definition extend (c : QuantumCircuit) (ops : list instruction) : QuantumCircuit :=
  mkQC (num_qubits c) (num_clbits c) (data c ++ ops).

(** ** The builder monad: the circuit is mutated in place, and an exception
    keeps the mutations made so far *)

Definition build (A : Type) : Type := QuantumCircuit -> QuantumCircuit * result A.

Definition ret {A} (a : A) : build A := fun c => (c, Ok a).

Definition bind {A B} (m : build A) (k : A -> build B) : build B :=
  fun c =>
    match m c with
    | (c', Ok a) => k a c'
    | (c', Raise e) => (c', Raise e)
    end.

Definition lift {A} (r : result A) : build A := fun c => (c, r).

Notation "x <- m ;; k" := (bind m (fun x => k))
  (at level 61, m at next level, right associativity).
Notation "m ;;; k" := (bind m (fun _ => k))
  (at level 61, right associativity).

Fixpoint for_each {A} (body : A -> build unit) (xs : list A) : build unit :=
  match xs with
  | [] => ret tt
  | x :: xs' => body x ;;; for_each body xs'
  end.

(** [for _ in range(k): body] *)
Fixpoint for_range (k : nat) (body : build unit) : build unit :=
  match k with
  | O => ret tt
  | S k' => body ;;; for_range k' body
  end.

(** ** Circuit methods

    They belong to the circuit library the source imports ([QuantumCircuit]
    next to [Aer] and [execute]), not to the source.  Each call checks its
    arguments before it appends anything, so a refused call leaves the
    circuit as it was:
    - a position must be one of the circuit's, else [CircuitError];
    - a call on a sequence of positions is broadcast, one operation per
      position in order, and an empty sequence is refused with
      [CircuitError];
    - [mcx] refuses an empty sequence of controls with [CircuitError], needs
      its controls as a list and raises [TypeError] on a range, and refuses
      with [CircuitError] a position used twice among controls and target;
    - [measure] pairs positions and classical bits of equal number, repeats a
      single position over several classical bits, and refuses any other
      combination with [CircuitError]. *)

Definition in_circuit (c : QuantumCircuit) (q : nat) : bool :=
  q <? num_qubits c.

Definition in_clbits (c : QuantumCircuit) (b : nat) : bool :=
  b <? num_clbits c.

Fixpoint distinct (l : list nat) : bool :=
  match l with
  | [] => true
  | a :: l' => negb (existsb (Nat.eqb a) l') && distinct l'
  end.

(** The positions of [l] up to the first that lies outside a circuit of
    [n] positions. *)
Fixpoint inside_prefix (n : nat) (l : list nat) : list nat :=
  match l with
  | [] => []
  | q :: l' => if q <? n then q :: inside_prefix n l' else []
  end.

(** A call that has passed its checks appends its operations. *)
Definition checked (ok : QuantumCircuit -> bool) (e : exn)
    (ops : list instruction) : build unit :=
  fun c => if ok c then (extend c ops, Ok tt) else (c, Raise e).

(** [circuit.h(q)] and [circuit.x(q)] on one position *)
Definition h (q : nat) : build unit :=
  checked (fun c => in_circuit c q) CircuitError [Gate (H q)].
Definition x (q : nat) : build unit :=
  checked (fun c => in_circuit c q) CircuitError [Gate (X q)].

(** [circuit.h(qs)] and [circuit.x(qs)] on a sequence of positions *)
Definition broadcast (g : nat -> gate) (qs : Py.sequence) : build unit :=
  checked
    (fun c => negb (Nat.eqb (Py.len qs) 0) && forallb (in_circuit c) (Py.items qs))
    CircuitError
    (map (fun q => Gate (g q)) (Py.items qs)).
Definition h_all (qs : Py.sequence) : build unit := broadcast H qs.
Definition x_all (qs : Py.sequence) : build unit := broadcast X qs.

(** [circuit.mcx(controls, target)] *)
Definition mcx (controls : Py.sequence) (target : nat) : build unit :=
  match controls with
  | Py.Range 0 => lift (Raise CircuitError)
  | Py.Range (S _) => lift (Raise TypeError)
  | Py.List [] => lift (Raise CircuitError)
  | Py.List (q :: l) =>
      checked
        (fun c => forallb (in_circuit c) ((q :: l) ++ [target])
                  && distinct ((q :: l) ++ [target]))
        CircuitError
        [Gate (MCX (q :: l) target)]
  end.

(** [circuit.measure(qs, cs)] *)
Definition measure (qs cs : Py.sequence) : build unit :=
  let q := Py.items qs in
  let k := Py.items cs in
  match q with
  | [q0] =>
      checked
        (fun c => negb (Nat.eqb (length k) 0) && in_circuit c q0
                  && forallb (in_clbits c) k)
        CircuitError
        (map (fun b => Measure q0 b) k)
  | _ =>
      checked
        (fun c => Nat.eqb (length q) (length k)
                  && forallb (in_circuit c) q && forallb (in_clbits c) k)
        CircuitError
        (map (fun qb => Measure (fst qb) (snd qb)) (combine q k))
  end.

(** ** The three functions of the source *)

(** The loop [for qubit, bit in enumerate(binary_string): if bit == '0':
    circuit.x(qubits[qubit])], which the oracle runs twice: its body, then
    the loop. *)
Definition flip_body (qubits : Py.sequence) (qb : nat * ascii) : build unit :=
  let (qubit, bit) := qb in
  if Ascii.eqb bit "0"%char
  then (q <- lift (Py.getitem qubits qubit) ;; x q)
  else ret tt.

Definition flip_zero_bits (qubits : Py.sequence) (binary_string : list ascii) : build unit :=
  for_each (flip_body qubits) (Py.enumerate binary_string).

Definition oracle (qubits : Py.sequence) (number_to_find : Z) : build unit :=
  let binary_string := Py.format_0b number_to_find (Py.len qubits) in
  flip_zero_bits qubits binary_string ;;;
  (q <- lift (Py.getitem_last qubits) ;; h q) ;;;
  (q <- lift (Py.getitem_last qubits) ;; mcx (Py.slice_init qubits) q) ;;;
  (q <- lift (Py.getitem_last qubits) ;; h q) ;;;
  flip_zero_bits qubits binary_string.

Definition diffuser (qubits : Py.sequence) : build unit :=
  h_all qubits ;;;
  x_all qubits ;;;
  (q <- lift (Py.getitem_last qubits) ;; h q) ;;;
  (q <- lift (Py.getitem_last qubits) ;; mcx (Py.slice_init qubits) q) ;;;
  (q <- lift (Py.getitem_last qubits) ;; h q) ;;;
  x_all qubits ;;;
  h_all qubits.

(** [grover_search] up to and including the measurements; the simulator run
    that follows is outside the source. *)
Definition grover_build (number_to_find : Z) (n_qubits : nat) : build unit :=
  h_all (Py.range n_qubits) ;;;
  k <- lift (num_iterations n_qubits) ;;
  for_range (Z.to_nat k)
    (oracle (Py.range n_qubits) number_to_find ;;;
     diffuser (Py.range n_qubits)) ;;;
  measure (Py.range n_qubits) (Py.range n_qubits).

Definition grover_search (number_to_find : Z) (n_qubits : nat)
  : QuantumCircuit * result unit :=
  grover_build number_to_find n_qubits (new_circuit n_qubits n_qubits).

(** ** Basis states and amplitude vectors

    A basis state of an [n]-position register is its bit pattern, the bit of
    register position [i] at index [i].  An amplitude vector assigns an
    amplitude to every basis state. *)

Definition basis := list bool.

Fixpoint update (f : bool -> bool) (q : nat) (s : basis) {struct s} : basis :=
  match s with
  | [] => []
  | b :: s' =>
      match q with
      | O => f b :: s'
      | S q' => b :: update f q' s'
      end
  end.

Definition flip (q : nat) : basis -> basis := update negb q.
Definition set_bit (q : nat) (v : bool) : basis -> basis := update (fun _ => v) q.
Definition bit (q : nat) (s : basis) : bool := nth q s false.
Definition all_ones (s : basis) : bool := forallb (fun b => b) s.

(** All [2^n] basis states of an [n]-position register. *)
Fixpoint all_states (n : nat) : list basis :=
  match n with
  | O => [[]]
  | S n' => map (cons false) (all_states n') ++ map (cons true) (all_states n')
  end.

(** Amplitudes live in a commutative ring that contains [1/sqrt 2]; the real
    and the complex numbers are such rings. *)
Record amplitude_ring := mkAmp {
  amp :> Type;
  azero : amp;
  aone : amp;
  aadd : amp -> amp -> amp;
  amul : amp -> amp -> amp;
  asub : amp -> amp -> amp;
  aopp : amp -> amp;
  amp_ring : ring_theory azero aone aadd amul asub aopp eq;
  inv_sqrt2 : amp;
  inv_sqrt2_spec : amul (aadd aone aone) (amul inv_sqrt2 inv_sqrt2) = aone
}.

Declare Scope amp_scope.
Delimit Scope amp_scope with amp.

Section Semantics.

Variable K : amplitude_ring.

Notation "0" := (azero K) : amp_scope.
Notation "1" := (aone K) : amp_scope.
Notation "a + b" := (aadd K a b) : amp_scope.
Notation "a * b" := (amul K a b) : amp_scope.
Notation "a - b" := (asub K a b) : amp_scope.
Notation "- a" := (aopp K a) : amp_scope.
Abbreviation r := (inv_sqrt2 K).
Local Open Scope amp_scope.

Add Ring K_ring : (amp_ring K).

Definition vector := basis -> K.

Definition signed (b : bool) (a : K) : K := if b then - a else a.

(** The new amplitude of basis state [s] after one gate.  [X] and [MCX]
    permute the basis states; [H] mixes the two states that differ at
    position [q].  An [MCX] fires when every control bit is set, so with an
    empty control list it is a plain [X]. *)
Definition apply_gate (g : gate) (a : vector) : vector :=
  match g with
  | X q => fun s => a (flip q s)
  | H q => fun s =>
      r * (a (set_bit q false s) + signed (bit q s) (a (set_bit q true s)))
  | MCX controls target => fun s =>
      if forallb (fun c => bit c s) controls then a (flip target s) else a s
  end.

(** Gates act in the order in which they were appended. *)
Definition run (gs : list gate) (a : vector) : vector :=
  fold_left (fun v g => apply_gate g v) gs a.

Fixpoint pow (a : K) (n : nat) : K :=
  match n with
  | O => 1
  | S n' => a * pow a n'
  end.

Definition sum (l : list K) : K := fold_right (aadd K) 0 l.

(** Sum and mean of the [2^n] amplitudes; [r * r] is one half. *)
Definition total (n : nat) (a : vector) : K := sum (map a (all_states n)).
Definition mean (n : nat) (a : vector) : K := pow (r * r) n * total n a.

(** Equality of two amplitude vectors of an [n]-position register. *)
Definition eq_on (n : nat) (a b : vector) : Prop :=
  forall s, length s = n -> a s = b s.

(** The amplitudes of the basis states that start with bit [b]. *)
Definition slice (b : bool) (a : vector) : vector := fun u => a (b :: u).

(** The layer of H gates on every position. *)
Definition hadamard (n : nat) : vector -> vector := run (map H (seq 0 n)).

(** The amplitude vector of the all-zero basis state. *)
Definition delta (n : nat) : vector :=
  fun u => if list_eq_dec bool_dec u (repeat false n) then 1 else 0.

End Semantics.

(** The real numbers as amplitudes. *)
Definition R_amp : amplitude_ring.
Proof.
  refine (@mkAmp R 0%R 1%R Rplus Rmult Rminus Ropp RTheory (/ sqrt 2)%R _).
  assert (Hs : (sqrt 2 * sqrt 2 = 2)%R) by (apply sqrt_sqrt; lra).
  assert (Hn : (sqrt 2 <> 0)%R) by (intro E; rewrite E in Hs; lra).
  rewrite <- Rinv_mult, Hs. lra.
Defined.

(** An amplitude vector over the reals with all its weight on the all-zero
    state of a two-position register. *)
Definition unit_vector_00 : vector R_amp :=
  fun s => match s with [false; false] => 1%R | _ => 0%R end.

(** ** The gate sequences as the specification words them *)

(** The [n]-bit encoding of [t], most significant bit at position 0.  It is
    also the basis state called [t]: position [i] carries character [i]. *)
Definition encoding (n : nat) (t : Z) : basis :=
  map (fun i => Z.testbit t (Z.of_nat (n - 1 - i))) (seq 0 n).

Definition char_of_bit (b : bool) : ascii := if b then "1"%char else "0"%char.

(** Positions whose bit in the pattern is 0. *)
Definition zero_positions (pattern : basis) : list nat :=
  filter (fun i => negb (bit i pattern)) (seq 0 (length pattern)).

(** H on the last position, multi-controlled X from all the others onto the
    last, H on the last position. *)
Definition phase_flip_gates (n : nat) : list gate :=
  [H (n - 1); MCX (seq 0 (n - 1)) (n - 1); H (n - 1)].

Definition oracle_gates (n : nat) (t : Z) : list gate :=
  map X (zero_positions (encoding n t)) ++
  phase_flip_gates n ++
  map X (zero_positions (encoding n t)).

Definition diffuser_gates (n : nat) : list gate :=
  map H (seq 0 n) ++ map X (seq 0 n) ++
  phase_flip_gates n ++
  map X (seq 0 n) ++ map H (seq 0 n).

(** The builder [m] leaves a circuit that is the one it was given followed
    by gates only. *)
Definition appends_gates (c c' : QuantumCircuit) : Prop :=
  exists gs : list gate, c' = extend c (map Gate gs).

Definition gates_only {A} (m : build A) : Prop :=
  forall c, appends_gates c (fst (m c)).

(** Auxiliary notions for the proofs. *)

(** Indices, counted from [k], of the characters equal to '0'. *)
Fixpoint zero_idx (k : nat) (s : list ascii) : list nat :=
  match s with
  | [] => []
  | ch :: s' =>
      if Ascii.eqb ch "0"%char then k :: zero_idx (S k) s' else zero_idx (S k) s'
  end.

(** The [k] low bits of [t], most significant first. *)
Definition msb_bits (k : nat) (t : Z) : basis :=
  map (fun i => Z.testbit t (Z.of_nat (k - 1 - i))) (seq 0 k).

(** Position-wise agreement of a basis state with a pattern. *)
Fixpoint agree (p s : basis) : basis :=
  match p, s with
  | t :: p', b :: s' => Bool.eqb t b :: agree p' s'
  | _, _ => []
  end.

Definition result_Z_eqb (a b : result Z) : bool :=
  match a, b with
  | Ok u, Ok v => Z.eqb u v
  | _, _ => false
  end.

(** The label of a basis state when position 0 is read as the least
    significant bit. *)
Fixpoint little_endian (s : basis) : Z :=
  match s with
  | [] => 0
  | b :: s' => Z.b2z b + 2 * little_endian s'
  end.

(** ** Further notions: arbitrary registers and the Grover iteration *)

(** The gates of the oracle and of the diffuser on a register given as any
    list of positions; register index [i] stands for position [qubits[i]]. *)
Definition phase_flip_gates_on (qubits : list nat) : list gate :=
  [H (last qubits 0);
   MCX (removelast qubits) (last qubits 0);
   H (last qubits 0)].

Definition oracle_gates_on (qubits : list nat) (t : Z) : list gate :=
  map (fun i => X (nth i qubits 0)) (zero_positions (encoding (length qubits) t)) ++
  phase_flip_gates_on qubits ++
  map (fun i => X (nth i qubits 0)) (zero_positions (encoding (length qubits) t)).

Definition diffuser_gates_on (qubits : list nat) : list gate :=
  map H qubits ++ map X qubits ++
  phase_flip_gates_on qubits ++
  map X qubits ++ map H qubits.

(** The gates of the driver's circuit with [k] iterations, measurements left
    out. *)
Definition grover_gates (n : nat) (t : Z) (k : nat) : list gate :=
  map H (seq 0 n) ++ concat (repeat (oracle_gates n t ++ diffuser_gates n) k).

(** The registers of the first [n] positions: the range the driver passes,
    and the list with the same elements. *)
Definition first_positions (n : nat) (qs : Py.sequence) : Prop :=
  qs = Py.range n \/ qs = Py.List (seq 0 n).

(** Whether the encoding of [t] for [n] positions has a character '0' at
    index [n] or beyond. *)
Definition wide_zero (t : Z) (n : nat) : bool :=
  existsb (fun i => n <=? i) (zero_idx 0 (Py.format_0b t n)).

(** The exception that ends the driver. *)
Definition driver_exception (t : Z) (n : nat) : exn :=
  if n =? 0 then CircuitError
  else if 1024 <=? n then OverflowError
  else if wide_zero t n then IndexError
  else if n =? 1 then CircuitError
  else TypeError.

(** The bit-flip loop restricted to the indices it touches. *)
Definition flip_indices (qubits : Py.sequence) (idx : list nat) : build unit :=
  for_each (fun i => q <- lift (Py.getitem qubits i) ;; x q) idx.

(** The positive number whose binary numeral is that of [p] followed by [j]
    ones. *)
Fixpoint append_ones (p : positive) (j : nat) : positive :=
  match j with
  | O => p
  | S j' => xI (append_ones p j')
  end.

Section Iteration.

Variable K : amplitude_ring.

Notation "0" := (azero K) : amp_scope.
Notation "1" := (aone K) : amp_scope.
Notation "a + b" := (aadd K a b) : amp_scope.
Notation "a * b" := (amul K a b) : amp_scope.
Notation "a - b" := (asub K a b) : amp_scope.
Notation "- a" := (aopp K a) : amp_scope.
Local Open Scope amp_scope.

(** The vector with amplitude [alpha] on the state [p] and [beta] on every
    other state. *)
Definition two_valued (p : basis) (alpha beta : K) : vector K :=
  fun s => if list_eq_dec bool_dec s p then alpha else beta.

(** The sum of the squares of the [2^n] amplitudes. *)
Definition sq_total (n : nat) (a : vector K) : K :=
  total n (fun s => a s * a s).

(** One oracle-diffuser pair on the pair (amplitude of the target, amplitude
    of every other state) of an [n]-position register. *)
Definition grover_step (n : nat) (ab : K * K) : K * K :=
  let mu := pow K (inv_sqrt2 K * inv_sqrt2 K) n
            * (- fst ab + (pow K (1 + 1) n - 1) * snd ab) in
  (- fst ab - (1 + 1) * mu, snd ab - (1 + 1) * mu).

Fixpoint grover_steps (n k : nat) (ab : K * K) : K * K :=
  match k with
  | O => ab
  | S k' => grover_steps n k' (grover_step n ab)
  end.

End Iteration.

Unset Implicit Arguments.

(** * Facts about the Python built-ins *)

Section Encoding.
Local Open Scope Z_scope.

Lemma msb_bits_snoc (k : nat) (t : Z) :
  msb_bits (S k) t = msb_bits k (Z.div2 t) ++ [Z.testbit t 0].
Proof.
  unfold msb_bits. rewrite seq_S, map_app. cbn [map Nat.add]. f_equal.
  - apply map_ext_in. intros i Hi. apply in_seq in Hi.
    rewrite Z.div2_spec, Z.shiftr_spec by lia. f_equal. lia.
  - do 2 f_equal. lia.
Qed.

Lemma msb_bits_cons (k : nat) (t : Z) :
  msb_bits (S k) t = Z.testbit t (Z.of_nat k) :: msb_bits k t.
Proof.
  unfold msb_bits. cbn [seq map]. f_equal.
  - f_equal. lia.
  - rewrite <- seq_shift, map_map. apply map_ext. intros i. f_equal. lia.
Qed.

Lemma length_bin_digits (p : positive) :
  length (Py.bin_digits p) = Pos.size_nat p.
Proof.
  induction p; simpl; rewrite ?length_app, ?IHp; simpl; lia.
Qed.

Lemma bin_digits_bits (p : positive) :
  Py.bin_digits p = map char_of_bit (msb_bits (Pos.size_nat p) (Zpos p)).
Proof.
  induction p; simpl Pos.size_nat; simpl Py.bin_digits.
  - rewrite msb_bits_snoc, map_app, IHp. reflexivity.
  - rewrite msb_bits_snoc, map_app, IHp. reflexivity.
  - reflexivity.
Qed.

Lemma size_nat_le (p : positive) (n : nat) :
  Zpos p < 2 ^ Z.of_nat n -> (Pos.size_nat p <= n)%nat.
Proof.
  revert n. induction p; intros n Hn; simpl.
  - destruct n; [simpl in Hn; lia|].
    apply le_n_S, IHp. rewrite Nat2Z.inj_succ, Z.pow_succ_r in Hn; lia.
  - destruct n; [simpl in Hn; lia|].
    apply le_n_S, IHp. rewrite Nat2Z.inj_succ, Z.pow_succ_r in Hn; lia.
  - destruct n; [simpl in Hn; lia | lia].
Qed.

Lemma size_nat_gt (p : positive) (n : nat) :
  2 ^ Z.of_nat n <= Zpos p -> (n < Pos.size_nat p)%nat.
Proof.
  revert n. induction p; intros n Hn; simpl.
  - destruct n; [lia|].
    apply -> Nat.succ_lt_mono. apply IHp.
    rewrite Nat2Z.inj_succ, Z.pow_succ_r in Hn; lia.
  - destruct n; [lia|].
    apply -> Nat.succ_lt_mono. apply IHp.
    rewrite Nat2Z.inj_succ, Z.pow_succ_r in Hn; lia.
  - destruct n; [lia|].
    rewrite Nat2Z.inj_succ, Z.pow_succ_r in Hn by lia.
    assert (0 < 2 ^ Z.of_nat n) by (apply Z.pow_pos_nonneg; lia). lia.
Qed.

Lemma msb_bits_pad (k n : nat) (t : Z) :
  0 <= t < 2 ^ Z.of_nat k ->
  msb_bits (n + k) t = repeat false n ++ msb_bits k t.
Proof.
  intros Ht. induction n; [reflexivity|].
  simpl. rewrite msb_bits_cons, IHn. f_equal.
  destruct (Z.eq_dec t 0) as [->|Hz]; [apply Z.testbit_0_l|].
  apply Z.bits_above_log2; [lia|].
  apply Z.log2_lt_pow2; [lia|].
  apply Z.lt_le_trans with (2 ^ Z.of_nat k); [lia|].
  apply Z.pow_le_mono_r; lia.
Qed.

Lemma map_repeat (A B : Type) (f : A -> B) (a : A) (n : nat) :
  map f (repeat a n) = repeat (f a) n.
Proof. induction n; simpl; congruence. Qed.

(** For an in-range target of a non-empty register the string computed by
    [format] is the [n]-bit encoding, character by character. *)
Lemma format_0b_encoding (n : nat) (t : Z) :
  (1 <= n)%nat -> 0 <= t < 2 ^ Z.of_nat n ->
  Py.format_0b t n = map char_of_bit (encoding n t).
Proof.
  intros Hn Ht. change (encoding n t) with (msb_bits n t).
  destruct t as [|p|p]; [| |lia]; simpl.
  - unfold Py.zfill. simpl length.
    replace n with ((n - 1) + 1)%nat at 2 by lia.
    rewrite msb_bits_pad by (simpl; lia).
    rewrite map_app, map_repeat. reflexivity.
  - unfold Py.zfill. rewrite length_bin_digits.
    pose proof (size_nat_le p n (proj2 Ht)) as Hs.
    replace n with ((n - Pos.size_nat p) + Pos.size_nat p)%nat at 2 by lia.
    rewrite msb_bits_pad.
    + rewrite map_app, map_repeat, <- bin_digits_bits. reflexivity.
    + split; [lia|]. clear. induction p; simpl Pos.size_nat;
        rewrite Nat2Z.inj_succ, Z.pow_succ_r by lia; try lia.
Qed.

End Encoding.

(** * Facts about the builders *)

Section Builders.

Lemma extend_nil (c : QuantumCircuit) : extend c [] = c.
Proof. destruct c. unfold extend. simpl. rewrite app_nil_r. reflexivity. Qed.

Lemma extend_extend (c : QuantumCircuit) (a b : list instruction) :
  extend (extend c a) b = extend c (a ++ b).
Proof. unfold extend. simpl. rewrite app_assoc. reflexivity. Qed.

Lemma bind_ok {A B} (m : build A) (k : A -> build B) c c' a :
  m c = (c', Ok a) -> bind m k c = k a c'.
Proof. intros E. unfold bind. rewrite E. reflexivity. Qed.

Lemma bind_raise {A B} (m : build A) (k : A -> build B) c c' e :
  m c = (c', Raise e) -> bind m k c = (c', Raise e).
Proof. intros E. unfold bind. rewrite E. reflexivity. Qed.

(** *** The circuit methods *)

Lemma in_circuit_true c q : q < num_qubits c -> in_circuit c q = true.
Proof. intros Hq. apply Nat.ltb_lt. exact Hq. Qed.

Lemma in_circuit_false c q : num_qubits c <= q -> in_circuit c q = false.
Proof. intros Hq. apply Nat.ltb_ge. exact Hq. Qed.

Lemma all_in_circuit c (l : list nat) :
  (forall q, In q l -> q < num_qubits c) -> forallb (in_circuit c) l = true.
Proof.
  intros Hl. apply forallb_forall. intros q Hq.
  apply in_circuit_true, Hl, Hq.
Qed.

Lemma checked_ok ok e ops c :
  ok c = true -> checked ok e ops c = (extend c ops, Ok tt).
Proof. intros E. unfold checked. rewrite E. reflexivity. Qed.

Lemma checked_raise ok e ops c :
  ok c = false -> checked ok e ops c = (c, Raise e).
Proof. intros E. unfold checked. rewrite E. reflexivity. Qed.

Lemma h_ok q c : q < num_qubits c -> h q c = (extend c [Gate (H q)], Ok tt).
Proof. intros Hq. apply checked_ok, in_circuit_true, Hq. Qed.

Lemma x_ok q c : q < num_qubits c -> x q c = (extend c [Gate (X q)], Ok tt).
Proof. intros Hq. apply checked_ok, in_circuit_true, Hq. Qed.

Lemma x_outside q c : num_qubits c <= q -> x q c = (c, Raise CircuitError).
Proof. intros Hq. apply checked_raise, in_circuit_false, Hq. Qed.

Lemma broadcast_ok (g : nat -> gate) (qs : Py.sequence) c :
  1 <= Py.len qs ->
  (forall q, In q (Py.items qs) -> q < num_qubits c) ->
  broadcast g qs c = (extend c (map Gate (map g (Py.items qs))), Ok tt).
Proof.
  intros Hn Hq. unfold broadcast. rewrite map_map.
  apply checked_ok. rewrite all_in_circuit by exact Hq.
  destruct (Py.len qs); [lia | reflexivity].
Qed.

Lemma broadcast_empty (g : nat -> gate) (qs : Py.sequence) c :
  Py.len qs = 0 -> broadcast g qs c = (c, Raise CircuitError).
Proof.
  intros Hn. unfold broadcast. apply checked_raise. rewrite Hn. reflexivity.
Qed.

Lemma distinct_NoDup (l : list nat) : NoDup l -> distinct l = true.
Proof.
  induction 1 as [|a l Ha Hl IH]; [reflexivity|].
  cbn [distinct]. rewrite IH, andb_true_r.
  apply negb_true_iff. apply not_true_is_false. intros E.
  apply existsb_exists in E. destruct E as [b [Hb Eb]].
  apply Nat.eqb_eq in Eb. subst b. contradiction.
Qed.

Lemma mcx_list_ok (l : list nat) (t : nat) c :
  1 <= length l ->
  (forall q, In q (l ++ [t]) -> q < num_qubits c) ->
  NoDup (l ++ [t]) ->
  mcx (Py.List l) t c = (extend c [Gate (MCX l t)], Ok tt).
Proof.
  intros Hn Hq Hd. destruct l as [|q l]; [simpl in Hn; lia|].
  unfold mcx. apply checked_ok.
  rewrite all_in_circuit by exact Hq.
  rewrite distinct_NoDup by exact Hd. reflexivity.
Qed.

Lemma mcx_range (n : nat) (t : nat) c :
  1 <= n -> mcx (Py.Range n) t c = (c, Raise TypeError).
Proof. intros Hn. destruct n; [lia | reflexivity]. Qed.

Lemma mcx_no_controls (qs : Py.sequence) (t : nat) c :
  Py.len qs = 0 -> mcx qs t c = (c, Raise CircuitError).
Proof.
  intros Hn. destruct qs as [[|n]|[|q l]]; try discriminate; reflexivity.
Qed.

(** *** Registers *)

Lemma items_range (n : nat) : Py.items (Py.range n) = seq 0 n.
Proof. reflexivity. Qed.

Lemma len_range (n : nat) : Py.len (Py.range n) = n.
Proof. unfold Py.len. rewrite items_range. apply length_seq. Qed.

Lemma len_list_seq (n : nat) : Py.len (Py.List (seq 0 n)) = n.
Proof. unfold Py.len. apply length_seq. Qed.

Lemma last_seq (n : nat) : 1 <= n -> last (seq 0 n) 0 = n - 1.
Proof.
  intros Hn. destruct n as [|n]; [lia|].
  rewrite seq_S, last_last. simpl. lia.
Qed.

Lemma removelast_seq (n : nat) : removelast (seq 0 n) = seq 0 (n - 1).
Proof.
  destruct n as [|n]; [reflexivity|].
  rewrite seq_S, removelast_last. f_equal. lia.
Qed.

Lemma getitem_last_nonempty (qs : Py.sequence) :
  1 <= Py.len qs -> Py.getitem_last qs = Ok (last (Py.items qs) 0).
Proof.
  unfold Py.len, Py.getitem_last. intros Hn.
  destruct (Py.items qs); [simpl in Hn; lia | reflexivity].
Qed.

Lemma getitem_last_empty (qs : Py.sequence) :
  Py.len qs = 0 -> Py.getitem_last qs = Raise IndexError.
Proof.
  unfold Py.len, Py.getitem_last. intros Hn.
  destruct (Py.items qs); [reflexivity | discriminate].
Qed.

Lemma getitem_last_range (n : nat) :
  1 <= n -> Py.getitem_last (Py.range n) = Ok (n - 1).
Proof.
  intros Hn. rewrite getitem_last_nonempty by (rewrite len_range; exact Hn).
  rewrite items_range, last_seq by exact Hn. reflexivity.
Qed.

Lemma slice_init_range (n : nat) :
  Py.slice_init (Py.range n) = Py.Range (n - 1).
Proof. reflexivity. Qed.

Lemma items_slice_init (qs : Py.sequence) :
  Py.items (Py.slice_init qs) = removelast (Py.items qs).
Proof.
  destruct qs as [n|l]; [|reflexivity].
  simpl. symmetry. apply removelast_seq.
Qed.

Lemma last_In (l : list nat) : 1 <= length l -> In (last l 0) l.
Proof.
  intros Hn. destruct l as [|a l]; [simpl in Hn; lia|].
  rewrite (app_removelast_last 0 (l := a :: l)) at 2 by discriminate.
  apply in_or_app. right. left. reflexivity.
Qed.

Lemma length_removelast_nat (l : list nat) :
  length (removelast l) = length l - 1.
Proof.
  destruct l as [|a l]; [reflexivity|].
  rewrite (app_removelast_last 0 (l := a :: l)) at 2 by discriminate.
  rewrite length_app. simpl. lia.
Qed.

(** *** The bit-flip loop *)

(** With every index of a character '0' inside the register and every
    position of the register inside the circuit, the loop appends its X
    gates and returns. *)
Lemma flip_loop_ok (qs : Py.sequence) (s : list ascii) : forall k c,
  (forall i, In i (zero_idx k s) -> i < Py.len qs) ->
  (forall q, In q (Py.items qs) -> q < num_qubits c) ->
  for_each (flip_body qs) (combine (seq k (length s)) s) c
  = (extend c (map Gate (map X (map (fun i => nth i (Py.items qs) 0) (zero_idx k s)))),
     Ok tt).
Proof.
  induction s as [|ch s IH]; intros k c Hz Hq; simpl.
  - unfold ret. rewrite extend_nil. reflexivity.
  - simpl in Hz. unfold bind at 1. unfold flip_body at 1.
    destruct (Ascii.eqb ch "0"%char).
    + assert (Hk : k < Py.len qs) by (apply Hz; left; reflexivity).
      unfold bind, lift, Py.getitem.
      destruct (nth_error (Py.items qs) k) as [q|] eqn:E;
        [|apply nth_error_None in E; unfold Py.len in Hk; lia].
      rewrite x_ok by (apply Hq; eapply nth_error_In; exact E).
      rewrite IH; [|intros i Hi; apply Hz; right; exact Hi|exact Hq].
      rewrite extend_extend. simpl.
      rewrite (nth_error_nth _ _ 0 E). reflexivity.
    + unfold ret. apply IH; assumption.
Qed.

(** In a circuit that holds the register, the loop raises exactly when a
    character '0' sits at an index beyond the register; nothing else can go
    wrong in it. *)
Lemma flip_loop_result (qs : Py.sequence) (s : list ascii) : forall k c,
  (forall q, In q (Py.items qs) -> q < num_qubits c) ->
  (snd (for_each (flip_body qs) (combine (seq k (length s)) s) c) = Raise IndexError /\
   exists i, nth_error s i = Some "0"%char /\ Py.len qs <= k + i)
  \/
  (snd (for_each (flip_body qs) (combine (seq k (length s)) s) c) = Ok tt /\
   forall i, nth_error s i = Some "0"%char -> k + i < Py.len qs).
Proof.
  induction s as [|ch s IH]; intros k c Hq; simpl.
  - right. split; [reflexivity|]. intros [|i]; discriminate.
  - unfold bind at 1. unfold flip_body at 1.
    destruct (Ascii.eqb ch "0"%char) eqn:Ech.
    + apply Ascii.eqb_eq in Ech. subst ch.
      unfold bind, lift, Py.getitem.
      destruct (nth_error (Py.items qs) k) as [q|] eqn:E.
      * assert (Hk : k < Py.len qs) by (apply nth_error_Some; congruence).
        rewrite x_ok by (apply Hq; eapply nth_error_In; exact E).
        destruct (IH (S k) (extend c [Gate (X q)]) Hq)
          as [[Hr [i [Hi Hl]]]|[Hr Hall]].
        -- left. split; [exact Hr|]. exists (S i). split; [exact Hi | lia].
        -- right. split; [exact Hr|]. intros [|i] Hi; [lia|].
           specialize (Hall i Hi). lia.
      * apply nth_error_None in E. left. split; [reflexivity|].
        exists 0. split; [reflexivity | unfold Py.len; lia].
    + unfold ret.
      destruct (IH (S k) c Hq) as [[Hr [i [Hi Hl]]]|[Hr Hall]].
      * left. split; [exact Hr|]. exists (S i). split; [exact Hi | lia].
      * right. split; [exact Hr|]. intros [|i] Hi.
        -- simpl in Hi. injection Hi as ->. discriminate.
        -- specialize (Hall i Hi). lia.
Qed.

(** With every index of a character '0' inside the register, the loop can
    only be stopped by the circuit: it appends X on the positions it flips
    up to the first that is not one of the circuit's, where it raises
    [CircuitError]; with no such position it returns. *)
Lemma flip_loop_total (qs : Py.sequence) (s : list ascii) : forall k c,
  (forall i, In i (zero_idx k s) -> i < Py.len qs) ->
  for_each (flip_body qs) (combine (seq k (length s)) s) c
  = (extend c
       (map Gate
          (map X (inside_prefix (num_qubits c)
                    (map (fun i => nth i (Py.items qs) 0) (zero_idx k s))))),
     if forallb (in_circuit c) (map (fun i => nth i (Py.items qs) 0) (zero_idx k s))
     then Ok tt else Raise CircuitError).
Proof.
  induction s as [|ch s IH]; intros k c Hz; simpl.
  - unfold ret. rewrite extend_nil. reflexivity.
  - simpl in Hz. unfold bind at 1. unfold flip_body at 1.
    destruct (Ascii.eqb ch "0"%char).
    + assert (Hk : k < Py.len qs) by (apply Hz; left; reflexivity).
      unfold bind, lift, Py.getitem.
      destruct (nth_error (Py.items qs) k) as [q|] eqn:E;
        [|apply nth_error_None in E; unfold Py.len in Hk; lia].
      cbn [map forallb inside_prefix]. rewrite (nth_error_nth _ _ 0 E).
      fold (in_circuit c q).
      destruct (in_circuit c q) eqn:Eq.
      * rewrite x_ok by (apply Nat.ltb_lt; exact Eq).
        rewrite IH by (intros i Hi; apply Hz; right; exact Hi).
        rewrite extend_extend. reflexivity.
      * rewrite x_outside by (apply Nat.ltb_ge; exact Eq).
        rewrite extend_nil. reflexivity.
    + unfold ret. apply IH. exact Hz.
Qed.

Lemma flip_loop_status (qs : Py.sequence) (s : list ascii) : forall k c,
  (forall i, In i (zero_idx k s) -> i < Py.len qs) ->
  snd (for_each (flip_body qs) (combine (seq k (length s)) s) c)
  = if forallb (in_circuit c) (map (fun i => nth i (Py.items qs) 0) (zero_idx k s))
    then Ok tt else Raise CircuitError.
Proof. intros k c Hz. rewrite flip_loop_total by exact Hz. reflexivity. Qed.

Lemma flip_zero_bits_unfold (qs : Py.sequence) (s : list ascii) :
  flip_zero_bits qs s = for_each (flip_body qs) (combine (seq 0 (length s)) s).
Proof. reflexivity. Qed.

Lemma zero_idx_bound (s : list ascii) : forall k i,
  In i (zero_idx k s) -> i < k + length s.
Proof.
  induction s as [|ch s IH]; intros k i Hi; simpl in *; [contradiction|].
  destruct (Ascii.eqb ch "0"%char).
  - destruct Hi as [<-|Hi]; [lia|]. apply IH in Hi. lia.
  - apply IH in Hi. lia.
Qed.

Lemma filter_map_S (f : nat -> bool) (l : list nat) :
  filter f (map S l) = map S (filter (fun i => f (S i)) l).
Proof.
  induction l as [|a l IH]; simpl; [reflexivity|].
  destruct (f (S a)); simpl; rewrite IH; reflexivity.
Qed.

Lemma zero_positions_cons (b : bool) (p : basis) :
  zero_positions (b :: p)
  = (if b then [] else [0]) ++ map S (zero_positions p).
Proof.
  unfold zero_positions. cbn [length seq filter].
  rewrite <- seq_shift, filter_map_S.
  destruct b; reflexivity.
Qed.

Lemma zero_idx_bits (p : basis) : forall k,
  zero_idx k (map char_of_bit p) = map (Nat.add k) (zero_positions p).
Proof.
  induction p as [|b p IH]; intros k; [reflexivity|].
  rewrite zero_positions_cons, map_app, map_map. cbn [map zero_idx].
  rewrite IH.
  destruct b; cbn [char_of_bit Ascii.eqb Bool.eqb app map].
  - apply map_ext. intros; lia.
  - rewrite Nat.add_0_r. f_equal. apply map_ext. intros; lia.
Qed.

Lemma zero_idx_pattern (p : basis) :
  zero_idx 0 (map char_of_bit p) = zero_positions p.
Proof. rewrite zero_idx_bits. cbn [Nat.add]. apply map_id. Qed.

End Builders.

Section BuildersOnRegisters.

Lemma length_encoding (n : nat) (t : Z) : length (encoding n t) = n.
Proof. unfold encoding. rewrite length_map, length_seq. reflexivity. Qed.

Lemma zero_positions_bound (p : basis) (i : nat) :
  In i (zero_positions p) -> i < length p.
Proof.
  unfold zero_positions. intros Hi. apply filter_In in Hi.
  destruct Hi as [Hi _]. apply in_seq in Hi. lia.
Qed.

Lemma map_nth_seq (n : nat) (l : list nat) :
  (forall i, In i l -> i < n) ->
  map (fun i => nth i (seq 0 n) 0) l = l.
Proof.
  intros Hl. rewrite <- (map_id l) at 2. apply map_ext_in.
  intros i Hi. rewrite seq_nth by (apply Hl; exact Hi). reflexivity.
Qed.

Lemma items_first_positions (n : nat) (qs : Py.sequence) :
  first_positions n qs -> Py.items qs = seq 0 n.
Proof. intros [->| ->]; reflexivity. Qed.

Lemma len_first_positions (n : nat) (qs : Py.sequence) :
  first_positions n qs -> Py.len qs = n.
Proof.
  intros Hq. unfold Py.len. rewrite (items_first_positions _ _ Hq).
  apply length_seq.
Qed.

Lemma first_positions_in_circuit (n : nat) (qs : Py.sequence) c :
  first_positions n qs -> n <= num_qubits c ->
  forall q, In q (Py.items qs) -> q < num_qubits c.
Proof.
  intros Hq Hn q Hi. rewrite (items_first_positions _ _ Hq) in Hi.
  apply in_seq in Hi. lia.
Qed.

(** The bit-flip loop over the characters of an [n]-bit pattern, on a
    register of the first [n] positions inside the circuit. *)
Lemma flip_zero_bits_pattern (n : nat) (qs : Py.sequence) (p : basis) c :
  first_positions n qs -> n <= num_qubits c -> length p = n ->
  flip_zero_bits qs (map char_of_bit p) c
  = (extend c (map Gate (map X (zero_positions p))), Ok tt).
Proof.
  intros Hq Hn Hp. rewrite flip_zero_bits_unfold.
  assert (Hb : forall i, In i (zero_idx 0 (map char_of_bit p)) -> i < n).
  { intros i Hi. apply zero_idx_bound in Hi. rewrite length_map in Hi. lia. }
  rewrite flip_loop_ok;
    [|rewrite (len_first_positions _ _ Hq); exact Hb
     |apply (first_positions_in_circuit _ _ _ Hq Hn)].
  rewrite (items_first_positions _ _ Hq), map_nth_seq by exact Hb.
  rewrite zero_idx_pattern. reflexivity.
Qed.

(** The same loop in any circuit: it appends X on the positions whose
    character is '0' up to the first that is not one of the circuit's, and
    returns when there is none. *)
Lemma flip_zero_bits_total (n : nat) (qs : Py.sequence) (p : basis) c :
  first_positions n qs -> length p = n ->
  flip_zero_bits qs (map char_of_bit p) c
  = (extend c (map Gate (map X (inside_prefix (num_qubits c) (zero_positions p)))),
     if forallb (in_circuit c) (zero_positions p)
     then Ok tt else Raise CircuitError).
Proof.
  intros Hq Hp. rewrite flip_zero_bits_unfold.
  assert (Hb : forall i, In i (zero_idx 0 (map char_of_bit p)) -> i < n).
  { intros i Hi. apply zero_idx_bound in Hi. rewrite length_map in Hi. lia. }
  rewrite flip_loop_total by (rewrite (len_first_positions _ _ Hq); exact Hb).
  rewrite (items_first_positions _ _ Hq), map_nth_seq by exact Hb.
  rewrite zero_idx_pattern. reflexivity.
Qed.

(** *** The oracle *)

(** The oracle after its first loop has returned: H on the last position,
    then the multi-controlled X. *)
Lemma oracle_unfold (qs : Py.sequence) (t : Z) :
  oracle qs t
  = (flip_zero_bits qs (Py.format_0b t (Py.len qs)) ;;;
     (q <- lift (Py.getitem_last qs) ;; h q) ;;;
     (q <- lift (Py.getitem_last qs) ;; mcx (Py.slice_init qs) q) ;;;
     (q <- lift (Py.getitem_last qs) ;; h q) ;;;
     flip_zero_bits qs (Py.format_0b t (Py.len qs))).
Proof. reflexivity. Qed.

(** The phase flip in the middle of both builders, on a list register of two
    or more distinct positions of the circuit. *)
Lemma phase_flip_list (l : list nat) (k : build unit) c :
  2 <= length l -> NoDup l ->
  (forall q, In q l -> q < num_qubits c) ->
  ((q <- lift (Py.getitem_last (Py.List l)) ;; h q) ;;;
   (q <- lift (Py.getitem_last (Py.List l)) ;; mcx (Py.slice_init (Py.List l)) q) ;;;
   (q <- lift (Py.getitem_last (Py.List l)) ;; h q) ;;; k) c
  = k (extend c (map Gate (phase_flip_gates_on l))).
Proof.
  intros Hn Hd Hq.
  assert (Hl : l = removelast l ++ [last l 0]).
  { apply app_removelast_last. intros ->. simpl in Hn. lia. }
  assert (Hlast : last l 0 < num_qubits c) by (apply Hq, last_In; lia).
  rewrite getitem_last_nonempty by (unfold Py.len; simpl; lia).
  cbn [Py.items Py.slice_init].
  unfold bind at 1. unfold bind at 1. unfold lift at 1.
  rewrite h_ok by exact Hlast.
  unfold bind at 1. unfold bind at 1. unfold lift at 1.
  rewrite mcx_list_ok;
    [|rewrite length_removelast_nat; lia
     |rewrite <- Hl; exact Hq
     |rewrite <- Hl; exact Hd].
  unfold bind at 1. unfold bind at 1. unfold lift at 1.
  rewrite h_ok by exact Hlast.
  rewrite !extend_extend. reflexivity.
Qed.

(** On a range of two or more positions the phase flip stops at the
    multi-controlled X, after the H on the last position. *)
Lemma phase_flip_range (n : nat) (k : build unit) c :
  2 <= n -> n <= num_qubits c ->
  ((q <- lift (Py.getitem_last (Py.range n)) ;; h q) ;;;
   (q <- lift (Py.getitem_last (Py.range n)) ;; mcx (Py.slice_init (Py.range n)) q) ;;;
   k) c
  = (extend c [Gate (H (n - 1))], Raise TypeError).
Proof.
  intros Hn Hc.
  rewrite getitem_last_range, slice_init_range by lia.
  unfold bind at 1. unfold bind at 1. unfold lift at 1.
  rewrite h_ok by lia.
  unfold bind at 1. unfold bind at 1. unfold lift at 1.
  rewrite mcx_range by lia. reflexivity.
Qed.

(** On a register of one position the phase flip stops at the
    multi-controlled X as well: there is no control. *)
Lemma phase_flip_single (qs : Py.sequence) (q0 : nat) (k : build unit) c :
  Py.items qs = [q0] -> q0 < num_qubits c ->
  ((q <- lift (Py.getitem_last qs) ;; h q) ;;;
   (q <- lift (Py.getitem_last qs) ;; mcx (Py.slice_init qs) q) ;;;
   k) c
  = (extend c [Gate (H q0)], Raise CircuitError).
Proof.
  intros Hi Hc.
  rewrite getitem_last_nonempty by (unfold Py.len; rewrite Hi; simpl; lia).
  rewrite Hi. cbn [last].
  unfold bind at 1. unfold bind at 1. unfold lift at 1.
  rewrite h_ok by exact Hc.
  unfold bind at 1. unfold bind at 1. unfold lift at 1.
  rewrite mcx_no_controls; [reflexivity|].
  unfold Py.len. rewrite items_slice_init, Hi. reflexivity.
Qed.

Lemma oracle_gates_on_seq (n : nat) (t : Z) :
  oracle_gates_on (seq 0 n) t = oracle_gates n t.
Proof.
  unfold oracle_gates_on, oracle_gates, phase_flip_gates_on, phase_flip_gates.
  rewrite length_seq, removelast_seq.
  assert (Hm : map (fun i => X (nth i (seq 0 n) 0)) (zero_positions (encoding n t))
               = map X (zero_positions (encoding n t))).
  { rewrite <- (map_map (fun i => nth i (seq 0 n) 0) X).
    rewrite map_nth_seq; [reflexivity|].
    intros i Hi. apply zero_positions_bound in Hi.
    rewrite length_encoding in Hi. exact Hi. }
  rewrite Hm.
  destruct n as [|n]; [reflexivity|].
  rewrite last_seq by lia. reflexivity.
Qed.

Lemma diffuser_gates_on_seq (n : nat) :
  1 <= n -> diffuser_gates_on (seq 0 n) = diffuser_gates n.
Proof.
  intros Hn.
  unfold diffuser_gates_on, diffuser_gates, phase_flip_gates_on, phase_flip_gates.
  rewrite removelast_seq, last_seq by exact Hn. reflexivity.
Qed.

(** The bit-flip loop on a list register. *)
Lemma flip_zero_bits_list (l : list nat) (p : basis) c :
  length p = length l ->
  (forall q, In q l -> q < num_qubits c) ->
  flip_zero_bits (Py.List l) (map char_of_bit p) c
  = (extend c (map Gate (map (fun i => X (nth i l 0)) (zero_positions p))), Ok tt).
Proof.
  intros Hp Hq. rewrite flip_zero_bits_unfold.
  rewrite flip_loop_ok; [|unfold Py.len; cbn [Py.items]|exact Hq].
  - cbn [Py.items]. rewrite zero_idx_pattern.
    rewrite (map_map (fun i => nth i l 0) X). reflexivity.
  - intros i Hi. apply zero_idx_bound in Hi. rewrite length_map in Hi. lia.
Qed.

(** On a list register of two or more distinct positions of the circuit,
    with an in-range target, the oracle appends its gates and returns. *)
Lemma oracle_list (l : list nat) (t : Z) c :
  2 <= length l -> NoDup l ->
  (forall q, In q l -> q < num_qubits c) ->
  (0 <= t < 2 ^ Z.of_nat (length l))%Z ->
  oracle (Py.List l) t c = (extend c (map Gate (oracle_gates_on l t)), Ok tt).
Proof.
  intros Hn Hd Hq Ht. rewrite oracle_unfold.
  change (Py.len (Py.List l)) with (length l).
  rewrite format_0b_encoding by (try lia; exact Ht).
  pose proof (length_encoding (length l) t) as Hl.
  erewrite bind_ok by (apply flip_zero_bits_list; [exact Hl | exact Hq]).
  rewrite phase_flip_list by assumption.
  rewrite flip_zero_bits_list by (try exact Hl; exact Hq).
  rewrite !extend_extend. unfold oracle_gates_on.
  rewrite !map_app. reflexivity.
Qed.

(** The same for any target whose encoding has no character '0' beyond the
    register: the X gates are those of the characters '0' inside it. *)
Lemma oracle_list_any (l : list nat) (t : Z) c :
  2 <= length l -> NoDup l ->
  (forall q, In q l -> q < num_qubits c) ->
  (forall i, In i (zero_idx 0 (Py.format_0b t (length l))) -> i < length l) ->
  oracle (Py.List l) t c
  = (extend c
       (map Gate
          (map (fun i => X (nth i l 0)) (zero_idx 0 (Py.format_0b t (length l))) ++
           phase_flip_gates_on l ++
           map (fun i => X (nth i l 0)) (zero_idx 0 (Py.format_0b t (length l))))),
     Ok tt).
Proof.
  intros Hn Hd Hq Hz. rewrite oracle_unfold.
  change (Py.len (Py.List l)) with (length l).
  rewrite !flip_zero_bits_unfold.
  erewrite bind_ok by (apply flip_loop_ok; [exact Hz | exact Hq]).
  rewrite phase_flip_list by assumption.
  rewrite flip_loop_ok by (try exact Hz; exact Hq).
  cbn [Py.items]. rewrite !extend_extend.
  rewrite (map_map (fun i => nth i l 0) X), !map_app. reflexivity.
Qed.

Lemma oracle_list_seq (n : nat) (t : Z) c :
  2 <= n -> n <= num_qubits c -> (0 <= t < 2 ^ Z.of_nat n)%Z ->
  oracle (Py.List (seq 0 n)) t c = (extend c (map Gate (oracle_gates n t)), Ok tt).
Proof.
  intros Hn Hc Ht. rewrite <- oracle_gates_on_seq.
  apply oracle_list.
  - rewrite length_seq. exact Hn.
  - apply seq_NoDup.
  - intros q Hq. apply in_seq in Hq. lia.
  - rewrite length_seq. exact Ht.
Qed.

(** On the range the driver passes, with an in-range target, the oracle
    stops at the multi-controlled X: the first loop and the H on the last
    position have been appended. *)
Lemma oracle_range (n : nat) (t : Z) c :
  2 <= n -> n <= num_qubits c -> (0 <= t < 2 ^ Z.of_nat n)%Z ->
  oracle (Py.range n) t c
  = (extend c (map Gate (map X (zero_positions (encoding n t)) ++ [H (n - 1)])),
     Raise TypeError).
Proof.
  intros Hn Hc Ht. rewrite oracle_unfold, len_range.
  rewrite format_0b_encoding by (try lia; exact Ht).
  erewrite bind_ok
    by (apply (@flip_zero_bits_pattern n);
        [left; reflexivity | exact Hc | apply length_encoding]).
  rewrite phase_flip_range by assumption.
  rewrite extend_extend, map_app. reflexivity.
Qed.

(** On a register of one position, with an in-range target, the oracle stops
    at the multi-controlled X too. *)
Lemma oracle_single (qs : Py.sequence) (t : Z) c :
  first_positions 1 qs -> 1 <= num_qubits c -> (0 <= t < 2)%Z ->
  oracle qs t c
  = (extend c (map Gate (map X (zero_positions (encoding 1 t)) ++ [H 0])),
     Raise CircuitError).
Proof.
  intros Hq Hc Ht. rewrite oracle_unfold, (len_first_positions _ _ Hq).
  rewrite format_0b_encoding by (try lia; exact Ht).
  erewrite bind_ok
    by (apply (@flip_zero_bits_pattern 1);
        [exact Hq | exact Hc | apply length_encoding]).
  rewrite (@phase_flip_single qs 0);
    [|apply (items_first_positions _ _ Hq) | exact Hc].
  rewrite extend_extend, map_app. reflexivity.
Qed.

(** *** The diffuser *)

Lemma diffuser_list (l : list nat) c :
  2 <= length l -> NoDup l ->
  (forall q, In q l -> q < num_qubits c) ->
  diffuser (Py.List l) c = (extend c (map Gate (diffuser_gates_on l)), Ok tt).
Proof.
  intros Hn Hd Hq. unfold diffuser, h_all, x_all.
  assert (Hl : 1 <= Py.len (Py.List l)) by (unfold Py.len; simpl; lia).
  erewrite bind_ok by (apply broadcast_ok; [exact Hl | exact Hq]).
  erewrite bind_ok by (apply broadcast_ok; [exact Hl | exact Hq]).
  rewrite phase_flip_list by assumption.
  erewrite bind_ok by (apply broadcast_ok; [exact Hl | exact Hq]).
  rewrite broadcast_ok by (try exact Hl; exact Hq).
  cbn [Py.items]. rewrite !extend_extend. unfold diffuser_gates_on.
  rewrite !map_app. reflexivity.
Qed.

Lemma diffuser_list_seq (n : nat) c :
  2 <= n -> n <= num_qubits c ->
  diffuser (Py.List (seq 0 n)) c = (extend c (map Gate (diffuser_gates n)), Ok tt).
Proof.
  intros Hn Hc. rewrite <- diffuser_gates_on_seq by lia.
  apply diffuser_list.
  - rewrite length_seq. exact Hn.
  - apply seq_NoDup.
  - intros q Hq. apply in_seq in Hq. lia.
Qed.

Lemma diffuser_range (n : nat) c :
  2 <= n -> n <= num_qubits c ->
  diffuser (Py.range n) c
  = (extend c (map Gate (map H (seq 0 n) ++ map X (seq 0 n) ++ [H (n - 1)])),
     Raise TypeError).
Proof.
  intros Hn Hc. unfold diffuser, h_all, x_all.
  assert (Hl : 1 <= Py.len (Py.range n)) by (rewrite len_range; lia).
  assert (Hq : forall c', num_qubits c' = num_qubits c ->
               forall q, In q (Py.items (Py.range n)) -> q < num_qubits c').
  { intros c' E q Hi. rewrite items_range in Hi. apply in_seq in Hi. lia. }
  erewrite bind_ok by (apply broadcast_ok; [exact Hl | apply Hq; reflexivity]).
  erewrite bind_ok by (apply broadcast_ok; [exact Hl | apply Hq; reflexivity]).
  rewrite phase_flip_range by assumption.
  rewrite items_range, !extend_extend, !map_app. reflexivity.
Qed.

Lemma diffuser_single (qs : Py.sequence) (q0 : nat) c :
  Py.items qs = [q0] -> q0 < num_qubits c ->
  diffuser qs c
  = (extend c (map Gate [H q0; X q0; H q0]), Raise CircuitError).
Proof.
  intros Hi Hc. unfold diffuser, h_all, x_all.
  assert (Hl : 1 <= Py.len qs) by (unfold Py.len; rewrite Hi; simpl; lia).
  assert (Hq : forall q, In q (Py.items qs) -> q < num_qubits c).
  { intros q Hin. rewrite Hi in Hin. destruct Hin as [<-|[]]. exact Hc. }
  erewrite bind_ok by (apply broadcast_ok; [exact Hl | exact Hq]).
  erewrite bind_ok by (apply broadcast_ok; [exact Hl | exact Hq]).
  rewrite (@phase_flip_single qs q0) by assumption.
  rewrite Hi, !extend_extend. reflexivity.
Qed.

Lemma diffuser_empty (qs : Py.sequence) c :
  Py.len qs = 0 -> diffuser qs c = (c, Raise CircuitError).
Proof.
  intros Hn. unfold diffuser, h_all.
  erewrite bind_raise by (apply broadcast_empty; exact Hn). reflexivity.
Qed.

End BuildersOnRegisters.

(** * Facts about basis states *)

Section Basis.

Lemma length_update (f : bool -> bool) (q : nat) (s : basis) :
  length (update f q s) = length s.
Proof.
  revert q. induction s as [|b s IH]; intros q; [reflexivity|].
  destruct q; simpl; [reflexivity | rewrite IH; reflexivity].
Qed.

Lemma update_last (f : bool -> bool) (pre : basis) (b : bool) :
  update f (length pre) (pre ++ [b]) = pre ++ [f b].
Proof. induction pre as [|c pre IH]; simpl; [reflexivity | rewrite IH; reflexivity]. Qed.

Lemma bit_last (pre : basis) (b : bool) : bit (length pre) (pre ++ [b]) = b.
Proof. unfold bit. rewrite nth_middle. reflexivity. Qed.

Lemma controls_from (pre tl : basis) : forall pre0,
  forallb (fun c => bit c (pre0 ++ pre ++ tl)) (seq (length pre0) (length pre))
  = all_ones pre.
Proof.
  induction pre as [|c pre IH]; intros pre0; [reflexivity|].
  change (all_ones (c :: pre)) with (c && all_ones pre).
  cbn [length seq forallb]. f_equal.
  - unfold bit. cbn [app]. rewrite nth_middle. reflexivity.
  - specialize (IH (pre0 ++ [c])).
    rewrite length_app, Nat.add_1_r, <- app_assoc in IH. exact IH.
Qed.

Lemma controls_init (pre : basis) (b : bool) :
  forallb (fun c => bit c (pre ++ [b])) (seq 0 (length pre)) = all_ones pre.
Proof. exact (controls_from pre [b] []). Qed.

Lemma fold_flip_S (zs : list nat) (c : bool) (s : basis) :
  fold_right flip (c :: s) (map S zs) = c :: fold_right flip s zs.
Proof.
  induction zs as [|z zs IH]; [reflexivity|].
  cbn [map fold_right]. rewrite IH. reflexivity.
Qed.

Lemma flips_agree (p : basis) : forall s,
  length s = length p ->
  fold_right flip s (zero_positions p) = agree p s.
Proof.
  induction p as [|t p IH]; intros [|b s] Hl; try discriminate; [reflexivity|].
  rewrite zero_positions_cons, fold_right_app, fold_flip_S.
  rewrite IH by (simpl in Hl; lia).
  destruct t, b; reflexivity.
Qed.

Lemma agree_involutive (p : basis) : forall s,
  length s = length p -> agree p (agree p s) = s.
Proof.
  induction p as [|t p IH]; intros [|b s] Hl; try discriminate; [reflexivity|].
  simpl. rewrite IH by (simpl in Hl; lia). destruct t, b; reflexivity.
Qed.

Lemma length_agree (p : basis) : forall s,
  length s = length p -> length (agree p s) = length p.
Proof.
  induction p as [|t p IH]; intros [|b s] Hl; try discriminate; [reflexivity|].
  simpl. rewrite IH by (simpl in Hl; lia). reflexivity.
Qed.

Lemma agree_all_ones (p : basis) : forall s,
  length s = length p ->
  all_ones (agree p s) = if list_eq_dec bool_dec s p then true else false.
Proof.
  induction p as [|t p IH]; intros [|b s] Hl; try discriminate.
  - destruct (list_eq_dec bool_dec [] []); [reflexivity | congruence].
  - change (all_ones (agree (t :: p) (b :: s)))
      with (Bool.eqb t b && all_ones (agree p s)).
    rewrite IH by (simpl in Hl; lia).
    destruct (list_eq_dec bool_dec (b :: s) (t :: p)) as [E|E].
    + injection E as -> ->.
      destruct (list_eq_dec bool_dec p p); [|congruence].
      destruct t; reflexivity.
    + destruct (list_eq_dec bool_dec s p) as [->|Hn].
      * destruct t, b; try reflexivity; exfalso; apply E; reflexivity.
      * apply andb_false_r.
Qed.

Lemma zero_positions_zeros (n : nat) :
  zero_positions (repeat false n) = seq 0 n.
Proof.
  induction n as [|n IH]; [reflexivity|].
  cbn [repeat]. rewrite zero_positions_cons, IH, seq_shift. reflexivity.
Qed.

Lemma length_all_states (n : nat) : length (all_states n) = 2 ^ n.
Proof.
  induction n as [|n IH]; [reflexivity|].
  cbn [all_states]. rewrite length_app, !length_map.
  unfold basis in *. rewrite IH. simpl. lia.
Qed.

End Basis.

(** * Facts about gate sequences as linear maps *)

Section Unitaries.

Variable K : amplitude_ring.

Notation "0" := (azero K) : amp_scope.
Notation "1" := (aone K) : amp_scope.
Notation "a + b" := (aadd K a b) : amp_scope.
Notation "a * b" := (amul K a b) : amp_scope.
Notation "a - b" := (asub K a b) : amp_scope.
Notation "- a" := (aopp K a) : amp_scope.
Abbreviation r := (inv_sqrt2 K).
Local Open Scope amp_scope.

Add Ring K_ring_facts : (amp_ring K).

Lemma half_twice (a : K) : r * (r * (a + a)) = a.
Proof.
  transitivity ((1 + 1) * (r * r) * a); [ring|].
  rewrite (inv_sqrt2_spec K). ring.
Qed.

Lemma run_app (g1 g2 : list gate) (a : vector K) :
  run (g1 ++ g2) a = run g2 (run g1 a).
Proof. apply fold_left_app. Qed.

Lemma run_cons (g : gate) (gs : list gate) (a : vector K) :
  run (g :: gs) a = run gs (apply_gate g a).
Proof. reflexivity. Qed.

Lemma apply_gate_ext (n : nat) (g : gate) (a b : vector K) :
  eq_on n a b -> eq_on n (apply_gate g a) (apply_gate g b).
Proof.
  intros E s Hs. destruct g as [q|q|cs q]; simpl.
  - unfold set_bit. rewrite !E by (rewrite length_update; exact Hs). reflexivity.
  - unfold flip. apply E. rewrite length_update. exact Hs.
  - unfold flip. rewrite !E by (rewrite ?length_update; exact Hs). reflexivity.
Qed.

Lemma run_ext (n : nat) (gs : list gate) : forall a b : vector K,
  eq_on n a b -> eq_on n (run gs a) (run gs b).
Proof.
  induction gs as [|g gs IH]; intros a b E; [exact E|].
  apply IH, apply_gate_ext, E.
Qed.

Lemma apply_gate_linear (g : gate) (x y : K) (a b : vector K) (s : basis) :
  apply_gate g (fun u => x * a u + y * b u) s
  = x * apply_gate g a s + y * apply_gate g b s.
Proof.
  destruct g as [q|q|cs q]; simpl.
  - unfold signed. destruct (bit q s); ring.
  - reflexivity.
  - destruct (forallb _ cs); reflexivity.
Qed.

Lemma run_linear (gs : list gate) : forall (x y : K) (a b : vector K) (s : basis),
  run gs (fun u => x * a u + y * b u) s = x * run gs a s + y * run gs b s.
Proof.
  induction gs as [|g gs IH]; intros x y a b s; [reflexivity|].
  rewrite !run_cons, <- IH.
  apply (run_ext (length s)); [|reflexivity].
  intros u _. apply apply_gate_linear.
Qed.

(** A layer of X gates flips the listed positions. *)
Lemma run_X_layer (qs : list nat) : forall (a : vector K) (s : basis),
  run (map X qs) a s = a (fold_right flip s qs).
Proof.
  induction qs as [|q qs IH]; intros a s; [reflexivity|].
  cbn [map]. rewrite run_cons, IH. reflexivity.
Qed.

(** H, multi-controlled X, H on the last position: the amplitude of the
    all-ones state changes sign. *)
Lemma run_phase_flip (n : nat) (a : vector K) (s : basis) :
  (1 <= n)%nat -> length s = n ->
  run (phase_flip_gates n) a s = signed K (all_ones s) (a s).
Proof.
  intros Hn Hs.
  destruct (exists_last (l := s)) as [pre [b ->]];
    [intro E; subst s; simpl in Hs; lia|].
  rewrite length_app in Hs. simpl in Hs.
  subst n. unfold phase_flip_gates. rewrite Nat.add_sub.
  unfold run. cbn [fold_left apply_gate].
  unfold set_bit, flip.
  rewrite !update_last, !bit_last, !controls_init.
  unfold all_ones at 3. rewrite forallb_app. fold (all_ones pre).
  cbn [forallb]. rewrite andb_true_r.
  rewrite ?update_last, ?bit_last. cbn [negb].
  destruct (all_ones pre), b; cbn [andb signed].
  - transitivity (- (r * (r * (a (pre ++ [true]) + a (pre ++ [true]))))); [ring|].
    rewrite half_twice. reflexivity.
  - transitivity (r * (r * (a (pre ++ [false]) + a (pre ++ [false])))); [ring|].
    apply half_twice.
  - transitivity (r * (r * (a (pre ++ [true]) + a (pre ++ [true])))); [ring|].
    apply half_twice.
  - transitivity (r * (r * (a (pre ++ [false]) + a (pre ++ [false])))); [ring|].
    apply half_twice.
Qed.

(** X on the zero positions of a pattern, the phase flip, the same X gates
    again: exactly the amplitude of the pattern changes sign. *)
Lemma run_mark_pattern (p : basis) (a : vector K) (s : basis) :
  (1 <= length p)%nat -> length s = length p ->
  run (map X (zero_positions p) ++ phase_flip_gates (length p)
       ++ map X (zero_positions p)) a s
  = if list_eq_dec bool_dec s p then - a s else a s.
Proof.
  intros Hp Hs. rewrite !run_app, run_X_layer, flips_agree by exact Hs.
  rewrite run_phase_flip by (try exact Hp; apply length_agree; exact Hs).
  rewrite run_X_layer, flips_agree by (apply length_agree; exact Hs).
  rewrite agree_involutive, agree_all_ones by exact Hs.
  destruct (list_eq_dec bool_dec s p); reflexivity.
Qed.

(** *** The Hadamard layer *)

Lemma run_H_shift (qs : list nat) (b : bool) : forall (a : vector K) (s : basis),
  run (map H (map S qs)) a (b :: s) = run (map H qs) (slice b a) s.
Proof.
  induction qs as [|q qs IH]; intros a s; [reflexivity|].
  cbn [map]. rewrite !run_cons, IH.
  apply (run_ext (length s)); [|reflexivity].
  intros u _. reflexivity.
Qed.

Lemma hadamard_S (n : nat) (a : vector K) (b : bool) (s : basis) :
  hadamard (S n) a (b :: s)
  = hadamard n (fun u => r * slice false a u + signed K b r * slice true a u) s.
Proof.
  unfold hadamard. cbn [seq]. rewrite <- seq_shift. cbn [map].
  rewrite run_cons, run_H_shift.
  apply (run_ext (length s)); [|reflexivity].
  intros u _. unfold slice. cbn [apply_gate set_bit update bit nth].
  destruct b; cbn [signed]; ring.
Qed.

Lemma hadamard_linear (n : nat) (x y : K) (a b : vector K) (s : basis) :
  hadamard n (fun u => x * a u + y * b u) s
  = x * hadamard n a s + y * hadamard n b s.
Proof. apply run_linear. Qed.

Lemma hadamard_ext (n : nat) (a b : vector K) (s : basis) :
  eq_on n a b -> length s = n -> hadamard n a s = hadamard n b s.
Proof. intros E Hs. apply (run_ext n); assumption. Qed.

(** The layer is its own inverse. *)
Lemma hadamard_involutive (n : nat) : forall (a : vector K) (s : basis),
  length s = n -> hadamard n (hadamard n a) s = a s.
Proof.
  induction n as [|n IH]; intros a s Hs.
  - destruct s; [reflexivity | discriminate].
  - destruct s as [|b s]; [discriminate|]. injection Hs as Hs.
    rewrite hadamard_S.
    rewrite (hadamard_ext n _
               (fun u =>
                  r * hadamard n (fun v => r * slice false a v + r * slice true a v) u
                  + signed K b r *
                    hadamard n (fun v => r * slice false a v + (- r) * slice true a v) u))
      ; [ | intros u Hu; cbv beta; unfold slice at 1 2;
            rewrite !hadamard_S; reflexivity | exact Hs ].
    rewrite hadamard_linear, !IH by exact Hs.
    unfold slice.
    destruct b; cbn [signed].
    + transitivity (r * (r * (a (true :: s) + a (true :: s)))); [ring|].
      apply half_twice.
    + transitivity (r * (r * (a (false :: s) + a (false :: s)))); [ring|].
      apply half_twice.
Qed.

(** *** Sums over all basis states *)

Lemma sum_app (l1 l2 : list K) : sum K l1 + sum K l2 = sum K (l1 ++ l2).
Proof.
  induction l1 as [|x l1 IH].
  - change (0 + sum K l2 = sum K l2). ring.
  - change (x + sum K l1 + sum K l2 = x + sum K (l1 ++ l2)).
    rewrite <- IH. ring.
Qed.

Lemma total_S (n : nat) (a : vector K) :
  total (S n) a = total n (slice false a) + total n (slice true a).
Proof.
  unfold total. cbn [all_states]. rewrite map_app, !map_map, sum_app. reflexivity.
Qed.

Lemma all_states_length (n : nat) : forall s, In s (all_states n) -> length s = n.
Proof.
  induction n as [|n IH]; intros s Hs.
  - destruct Hs as [<-|[]]. reflexivity.
  - cbn [all_states] in Hs. apply in_app_or in Hs.
    destruct Hs as [Hs|Hs]; apply in_map_iff in Hs;
      destruct Hs as [u [<- Hu]]; simpl; rewrite (IH u Hu); reflexivity.
Qed.

Lemma total_ext (n : nat) (a b : vector K) :
  eq_on n a b -> total n a = total n b.
Proof.
  intros E. unfold total. f_equal. apply map_ext_in.
  intros s Hs. apply E, all_states_length, Hs.
Qed.

Lemma total_linear (n : nat) : forall (x y : K) (a b : vector K),
  total n (fun u => x * a u + y * b u) = x * total n a + y * total n b.
Proof.
  induction n as [|n IH]; intros x y a b.
  - unfold total. cbn [all_states map sum fold_right]. ring.
  - rewrite !total_S. unfold slice. rewrite !IH.
    fold (slice false a) (slice true a) (slice false b) (slice true b). ring.
Qed.


Lemma pow_mul (x y : K) (n : nat) : pow K x n * pow K y n = pow K (x * y) n.
Proof. induction n as [|n IH]; cbn [pow]; [ring | rewrite <- IH; ring]. Qed.

(** The first row of the layer sums the amplitudes. *)
Lemma hadamard_zeros (n : nat) : forall a : vector K,
  hadamard n a (repeat false n) = pow K r n * total n a.
Proof.
  induction n as [|n IH]; intros a.
  - unfold total, hadamard, run.
    cbn [all_states map sum fold_right pow seq fold_left repeat]. ring.
  - cbn [repeat]. rewrite hadamard_S, IH. cbn [signed pow].
    rewrite total_linear, total_S. ring.
Qed.

Lemma hadamard_delta (n : nat) : forall s,
  length s = n -> hadamard n (delta K n) s = pow K r n.
Proof.
  induction n as [|n IH]; intros s Hs.
  - destruct s; [reflexivity | discriminate].
  - destruct s as [|b s]; [discriminate|]. injection Hs as Hs.
    rewrite hadamard_S.
    rewrite (hadamard_ext n _ (fun u => r * delta K n u + 0 * delta K n u)).
    + rewrite hadamard_linear, IH by exact Hs. cbn [pow]. ring.
    + intros u _. unfold slice, delta. cbn [repeat].
      destruct (list_eq_dec bool_dec (true :: u) (false :: repeat false n));
        [discriminate|].
      destruct (list_eq_dec bool_dec u (repeat false n)) as [->|Hu];
        destruct (list_eq_dec bool_dec (false :: _) (false :: repeat false n)) as [E|E];
        try ring; congruence.
    + exact Hs.
Qed.

(** *** The diffuser *)

Lemma run_mark_zeros (n : nat) (a : vector K) (s : basis) :
  (1 <= n)%nat -> length s = n ->
  run (map X (seq 0 n) ++ phase_flip_gates n ++ map X (seq 0 n)) a s
  = if list_eq_dec bool_dec s (repeat false n) then - a s else a s.
Proof.
  intros Hn Hs.
  pose proof (run_mark_pattern (repeat false n) a s) as P.
  rewrite repeat_length, zero_positions_zeros in P.
  apply P; assumption.
Qed.

Lemma diffuser_gates_split (n : nat) :
  diffuser_gates n
  = map H (seq 0 n)
    ++ (map X (seq 0 n) ++ phase_flip_gates n ++ map X (seq 0 n))
    ++ map H (seq 0 n).
Proof. unfold diffuser_gates. rewrite <- !app_assoc. reflexivity. Qed.

(** The diffuser's gate sequence subtracts twice the mean from every
    amplitude. *)
Lemma run_diffuser (n : nat) (a : vector K) (s : basis) :
  (1 <= n)%nat -> length s = n ->
  run (diffuser_gates n) a s = a s - (1 + 1) * mean n a.
Proof.
  intros Hn Hs. rewrite diffuser_gates_split, run_app, run_app.
  change (run (map H (seq 0 n))) with (@hadamard K n).
  set (a1 := hadamard n a).
  rewrite (hadamard_ext n _
             (fun u => 1 * a1 u + (- ((1 + 1) * a1 (repeat false n))) * delta K n u)).
  - rewrite hadamard_linear, hadamard_delta by exact Hs.
    unfold a1. rewrite hadamard_involutive, hadamard_zeros by exact Hs.
    unfold mean. rewrite <- pow_mul. ring.
  - intros u Hu. rewrite run_mark_zeros by assumption.
    unfold delta.
    destruct (list_eq_dec bool_dec u (repeat false n)) as [->|Hne]; ring.
  - exact Hs.
Qed.




(** [r * r] is one half, so [mean] is the sum divided by [2^n]. *)
Lemma mean_average (n : nat) (a : vector K) :
  pow K (1 + 1) n * mean n a = total n a.
Proof.
  unfold mean.
  transitivity (pow K (1 + 1) n * pow K (r * r) n * total n a); [ring|].
  rewrite pow_mul, (inv_sqrt2_spec K).
  replace (pow K 1 n) with 1; [ring|].
  induction n as [|n IH]; cbn [pow]; [reflexivity | rewrite <- IH; ring].
Qed.

End Unitaries.

(** * Facts about the driver *)

Section Driver.

(** A loop body that appends [ops] and returns, on every circuit with as
    many positions as [c], does so [k] times over. *)
Lemma for_range_ok (ops : list instruction) (body : build unit) c :
  (forall c', num_qubits c' = num_qubits c -> body c' = (extend c' ops, Ok tt)) ->
  forall k, for_range k body c = (extend c (concat (repeat ops k)), Ok tt).
Proof.
  intros Hb k. revert c Hb.
  induction k as [|k IH]; intros c Hb; cbn [for_range repeat concat].
  - unfold ret. rewrite extend_nil. reflexivity.
  - erewrite bind_ok by (apply Hb; reflexivity).
    rewrite IH, extend_extend; [reflexivity|].
    intros c' E. apply Hb. exact E.
Qed.

Lemma map_Gate_concat (x : list gate) (k : nat) :
  map Gate (concat (repeat x k)) = concat (repeat (map Gate x) k).
Proof.
  induction k as [|k IH]; [reflexivity|].
  cbn [repeat concat]. rewrite map_app, IH. reflexivity.
Qed.

Lemma for_range_raise (body : build unit) (k : nat) c c' e :
  body c = (c', Raise e) -> for_range (S k) body c = (c', Raise e).
Proof. intros Hb. cbn [for_range]. apply bind_raise. exact Hb. Qed.

Lemma combine_diag (l : list nat) : combine l l = map (fun i => (i, i)) l.
Proof. induction l as [|a l IH]; simpl; [reflexivity | rewrite IH; reflexivity]. Qed.

Lemma all_in_clbits c (l : list nat) :
  (forall b, In b l -> b < num_clbits c) -> forallb (in_clbits c) l = true.
Proof.
  intros Hl. apply forallb_forall. intros b Hb.
  apply Nat.ltb_lt, Hl, Hb.
Qed.

(** Measuring the first [n] positions into the first [n] classical bits of
    a circuit that has them. *)
Lemma measure_range (n : nat) c :
  n <= num_qubits c -> n <= num_clbits c ->
  measure (Py.range n) (Py.range n) c
  = (extend c (map (fun i => Measure i i) (seq 0 n)), Ok tt).
Proof.
  intros Hq Hb. unfold measure. rewrite items_range.
  assert (Hin : forall c', num_qubits c' = num_qubits c ->
                forallb (in_circuit c') (seq 0 n) = true).
  { intros c' E. apply all_in_circuit. intros q Hi. apply in_seq in Hi. lia. }
  assert (Hcl : forallb (in_clbits c) (seq 0 n) = true).
  { apply all_in_clbits. intros q Hi. apply in_seq in Hi. lia. }
  destruct n as [|[|n]].
  - apply checked_ok. reflexivity.
  - apply checked_ok. cbn [seq length Nat.eqb negb andb].
    rewrite in_circuit_true by lia. exact Hcl.
  - cbv zeta iota. cbn [seq]. cbn [seq] in Hcl.
    rewrite checked_ok.
    + cbn [combine map fst snd]. rewrite combine_diag, map_map. reflexivity.
    + rewrite Nat.eqb_refl. cbn [andb].
      change (0 :: 1 :: seq 2 n) with (seq 0 (S (S n))).
      rewrite Hin by reflexivity. exact Hcl.
Qed.

Lemma result_Z_eqb_eq (a : result Z) (v : Z) :
  result_Z_eqb a (Ok v) = true -> a = Ok v.
Proof.
  destruct a as [u|e]; simpl; [|discriminate].
  intros E. apply Z.eqb_eq in E. congruence.
Qed.

(** Up to 104 positions the double-precision computation is exact. *)
Lemma num_iterations_floor (n : nat) :
  n <= 104 -> num_iterations n = Ok (Z.sqrt (2 ^ Z.of_nat n)).
Proof.
  intros Hn. apply result_Z_eqb_eq.
  assert (Hall : forallb
            (fun m => result_Z_eqb (num_iterations m) (Ok (Z.sqrt (2 ^ Z.of_nat m))))
            (seq 0 105) = true) by (vm_compute; reflexivity).
  rewrite forallb_forall in Hall. apply Hall, in_seq. lia.
Qed.

(** The rounding rule of [Float64.sqrt] picks the integer nearest to the real
    square root of the scaled mantissa: [s' - 1/2 <= sqrt m < s' + 1/2]. *)
Lemma sqrt_rounding_nearest (m : Z) :
  (1 <= m)%Z ->
  let s := Z.sqrt m in
  let s' := if (s <? m - s * s)%Z then (s + 1)%Z else s in
  ((2 * s' - 1) * (2 * s' - 1) <= 4 * m < (2 * s' + 1) * (2 * s' + 1))%Z.
Proof.
  intros Hm s s'.
  assert (H0 : (0 <= m)%Z) by lia.
  pose proof (Z.sqrt_spec m H0) as Hs. cbv zeta in Hs. fold s in Hs.
  unfold Z.succ in Hs.
  assert (Hpos : (0 <= s)%Z) by apply Z.sqrt_nonneg.
  subst s'. destruct (Z.ltb_spec s (m - s * s)) as [Hlt|Hle]; nia.
Qed.

(** A power of two up to [2^1023] converts exactly. *)
Lemma of_int_pow2 (n : nat) :
  n <= 1023 ->
  Float64.of_int (2 ^ Z.of_nat n) = Ok (Float64.mk (2 ^ 52) (Z.of_nat n - 52)).
Proof.
  intros Hn. unfold Float64.of_int.
  assert (Hp : (0 < 2 ^ Z.of_nat n)%Z) by (apply Z.pow_pos_nonneg; lia).
  destruct (Z.leb_spec (2 ^ Z.of_nat n) 0) as [H0|_]; [lia|].
  rewrite Z.log2_pow2 by lia.
  destruct (Z.leb_spec (Z.of_nat n) 52) as [Hs|Hs].
  - rewrite <- Z.pow_add_r by lia. do 3 f_equal. lia.
  - cbv zeta.
    assert (Hq : (2 ^ Z.of_nat n / 2 ^ (Z.of_nat n - 52) = 2 ^ 52)%Z).
    { rewrite <- Z.pow_sub_r by lia. f_equal. lia. }
    assert (Hr : (2 ^ Z.of_nat n mod 2 ^ (Z.of_nat n - 52) = 0)%Z).
    { replace (Z.of_nat n) with (52 + (Z.of_nat n - 52))%Z at 1 by lia.
      rewrite Z.pow_add_r by lia. apply Z_mod_mult. }
    rewrite Hq, Hr.
    assert (Hh : (0 < 2 ^ (Z.of_nat n - 52 - 1))%Z) by (apply Z.pow_pos_nonneg; lia).
    destruct (Z.ltb_spec (2 ^ (Z.of_nat n - 52 - 1)) 0) as [H0|_]; [lia|].
    destruct (Z.eqb_spec 0 (2 ^ (Z.of_nat n - 52 - 1))) as [H0|_]; [lia|].
    cbn [orb andb].
    destruct (Z.eqb_spec (2 ^ 52) (2 ^ 53)) as [H0|_]; [discriminate H0|].
    cbn [Float64.expo].
    destruct (Z.ltb_spec 1023 (Z.of_nat n - 52 + 52)) as [H0|_]; [lia | reflexivity].
Qed.

Lemma to_int_pow2 (e : Z) :
  (-52 <= e)%Z -> Float64.to_int (Float64.mk (2 ^ 52) e) = (2 ^ (e + 52))%Z.
Proof.
  intros He. unfold Float64.to_int. cbn [Float64.mant Float64.expo].
  destruct (Z.leb_spec 0 e) as [H0|H0].
  - rewrite <- Z.pow_add_r by lia. f_equal. lia.
  - rewrite <- Z.pow_sub_r by lia. f_equal. lia.
Qed.

Lemma sqrt_pow2_even (m : nat) :
  Z.sqrt (2 ^ Z.of_nat (2 * m)) = (2 ^ Z.of_nat m)%Z.
Proof.
  replace (Z.of_nat (2 * m)) with (Z.of_nat m + Z.of_nat m)%Z by lia.
  rewrite Z.pow_add_r by lia.
  rewrite Z.sqrt_square by (apply Z.pow_nonneg; lia). reflexivity.
Qed.

(** With an even number of positions, up to 1022, the square root is a power
    of two and the computation is exact. *)
Lemma num_iterations_even (m : nat) :
  2 * m <= 1022 -> num_iterations (2 * m) = Ok (Z.sqrt (2 ^ Z.of_nat (2 * m))).
Proof.
  intros Hm. rewrite sqrt_pow2_even.
  unfold num_iterations. rewrite of_int_pow2 by lia.
  unfold Float64.sqrt. cbn [Float64.mant Float64.expo].
  destruct (Z.eqb_spec (2 ^ 52) 0) as [H0|_]; [discriminate H0|].
  replace (Z.of_nat (2 * m) - 52)%Z with (2 * (Z.of_nat m - 26))%Z by lia.
  rewrite Z.even_mul. cbn [Z.even orb]. cbv zeta.
  replace (Z.sqrt (2 ^ 52 * 2 ^ 52)) with (2 ^ 52)%Z by (vm_compute; reflexivity).
  replace (2 ^ 52 * 2 ^ 52 - 2 ^ 52 * 2 ^ 52)%Z with 0%Z by lia.
  destruct (Z.ltb_spec (2 ^ 52) 0) as [H0|_]; [discriminate H0|].
  replace ((2 * (Z.of_nat m - 26) - 52) / 2)%Z with (Z.of_nat m - 52)%Z
    by (replace (2 * (Z.of_nat m - 26) - 52)%Z with ((Z.of_nat m - 52) * 2)%Z by lia;
        rewrite Z.div_mul by lia; reflexivity).
  rewrite to_int_pow2 by lia. do 2 f_equal. lia.
Qed.

(** With an odd number of positions from 105 on, the mantissa of the square
    root is rounded up and the count exceeds the floor of the square root. *)
Lemma num_iterations_odd_large (j : nat) :
  105 + 2 * j <= 1023 ->
  num_iterations (105 + 2 * j) = Ok (6369051672525773 * 2 ^ Z.of_nat j)%Z /\
  (Z.sqrt (2 ^ Z.of_nat (105 + 2 * j)) < 6369051672525773 * 2 ^ Z.of_nat j)%Z.
Proof.
  intros Hj. split.
  - unfold num_iterations. rewrite of_int_pow2 by lia.
    unfold Float64.sqrt. cbn [Float64.mant Float64.expo].
    destruct (Z.eqb_spec (2 ^ 52) 0) as [H0|_]; [discriminate H0|].
    replace (Z.of_nat (105 + 2 * j) - 52)%Z with (1 + 2 * (Z.of_nat j + 26))%Z by lia.
    rewrite Z.even_add_mul_2. cbn [Z.even]. cbv zeta.
    replace (Z.sqrt (2 ^ 52 * 2 ^ 53)) with 6369051672525772%Z
      by (vm_compute; reflexivity).
    replace (6369051672525772 <?
             2 ^ 52 * 2 ^ 53 - 6369051672525772 * 6369051672525772)%Z
      with true by (vm_compute; reflexivity).
    replace ((1 + 2 * (Z.of_nat j + 26) - 53) / 2)%Z with (Z.of_nat j)
      by (replace (1 + 2 * (Z.of_nat j + 26) - 53)%Z with (Z.of_nat j * 2)%Z by lia;
          rewrite Z.div_mul by lia; reflexivity).
    unfold Float64.to_int. cbn [Float64.mant Float64.expo].
    destruct (Z.leb_spec 0 (Z.of_nat j)) as [_|H0]; [reflexivity | lia].
  - assert (Hp : (0 < 2 ^ Z.of_nat j)%Z) by (apply Z.pow_pos_nonneg; lia).
    apply Z.sqrt_lt_square; [apply Z.pow_nonneg; lia | lia |].
    replace (Z.of_nat (105 + 2 * j)) with (105 + (Z.of_nat j + Z.of_nat j))%Z by lia.
    rewrite !Z.pow_add_r by lia.
    assert (Hc : (2 ^ 105 < 6369051672525773 * 6369051672525773)%Z)
      by (vm_compute; reflexivity).
    nia.
Qed.

Lemma num_iterations_exact (n : nat) :
  n <= 104 \/ (Nat.even n = true /\ n <= 1022) ->
  num_iterations n = Ok (Z.sqrt (2 ^ Z.of_nat n)).
Proof.
  intros [Hn|[He Hn]]; [apply num_iterations_floor; exact Hn|].
  apply Nat.even_spec in He. destruct He as [m ->].
  apply num_iterations_even. exact Hn.
Qed.

(** From 1024 positions on, [2**n] does not fit a double and the driver
    raises [OverflowError] after its Hadamard layer. *)
Lemma num_iterations_overflow (n : nat) :
  1024 <= n -> num_iterations n = Raise OverflowError.
Proof.
  intros Hn. unfold num_iterations, Float64.of_int.
  assert (Hp : (0 < 2 ^ Z.of_nat n)%Z) by (apply Z.pow_pos_nonneg; lia).
  destruct (Z.leb_spec (2 ^ Z.of_nat n) 0) as [H0|_]; [lia|].
  rewrite Z.log2_pow2 by lia.
  destruct (Z.leb_spec (Z.of_nat n) 52) as [H0|_]; [lia|].
  cbv zeta.
  assert (Hq : (2 ^ Z.of_nat n / 2 ^ (Z.of_nat n - 52) = 2 ^ 52)%Z).
  { rewrite <- Z.pow_sub_r by lia. f_equal. lia. }
  assert (Hr : (2 ^ Z.of_nat n mod 2 ^ (Z.of_nat n - 52) = 0)%Z).
  { replace (Z.of_nat n) with (52 + (Z.of_nat n - 52))%Z at 1 by lia.
    rewrite Z.pow_add_r by lia. apply Z_mod_mult. }
  rewrite Hq, Hr.
  assert (Hh : (0 < 2 ^ (Z.of_nat n - 52 - 1))%Z) by (apply Z.pow_pos_nonneg; lia).
  destruct (Z.ltb_spec (2 ^ (Z.of_nat n - 52 - 1)) 0) as [H0|_]; [lia|].
  destruct (Z.eqb_spec 0 (2 ^ (Z.of_nat n - 52 - 1))) as [H0|_]; [lia|].
  cbn [orb andb].
  destruct (Z.eqb_spec (2 ^ 52) (2 ^ 53)) as [H0|_]; [discriminate H0|].
  cbn [Float64.expo].
  destruct (Z.ltb_spec 1023 (Z.of_nat n - 52 + 52)) as [_|H0]; [reflexivity | lia].
Qed.

(** The mantissa of the rounded square root of [2^105]. *)
Lemma num_iterations_odd (m : nat) :
  2 * m + 1 <= 1023 ->
  num_iterations (2 * m + 1)
  = Ok (Float64.to_int (Float64.mk 6369051672525773 (Z.of_nat m - 52))).
Proof.
  intros Hm. unfold num_iterations. rewrite of_int_pow2 by lia.
  unfold Float64.sqrt. cbn [Float64.mant Float64.expo].
  destruct (Z.eqb_spec (2 ^ 52) 0) as [H0|_]; [discriminate H0|].
  replace (Z.of_nat (2 * m + 1) - 52)%Z with (1 + 2 * (Z.of_nat m - 26))%Z by lia.
  rewrite Z.even_add_mul_2. cbn [Z.even]. cbv zeta.
  replace (Z.sqrt (2 ^ 52 * 2 ^ 53)) with 6369051672525772%Z
    by (vm_compute; reflexivity).
  replace (6369051672525772 <?
           2 ^ 52 * 2 ^ 53 - 6369051672525772 * 6369051672525772)%Z
    with true by (vm_compute; reflexivity).
  replace ((1 + 2 * (Z.of_nat m - 26) - 53) / 2)%Z with (Z.of_nat m - 52)%Z
    by (replace (1 + 2 * (Z.of_nat m - 26) - 53)%Z with ((Z.of_nat m - 52) * 2)%Z by lia;
        rewrite Z.div_mul by lia; reflexivity).
  reflexivity.
Qed.

(** Whenever the count is computed it is at least one. *)
Lemma num_iterations_positive (n : nat) :
  n <= 1023 -> exists k : Z, num_iterations n = Ok k /\ (1 <= k)%Z.
Proof.
  intros Hn. destruct (Nat.Even_or_Odd n) as [[m ->]|[m ->]].
  - exists (Z.sqrt (2 ^ Z.of_nat (2 * m))). split.
    + apply num_iterations_even. lia.
    + rewrite sqrt_pow2_even.
      assert (0 < 2 ^ Z.of_nat m)%Z by (apply Z.pow_pos_nonneg; lia). lia.
  - eexists. split; [apply num_iterations_odd; lia|].
    unfold Float64.to_int. cbn [Float64.mant Float64.expo].
    destruct (Z.leb_spec 0 (Z.of_nat m - 52)) as [H0|H0].
    + assert (0 < 2 ^ (Z.of_nat m - 52))%Z by (apply Z.pow_pos_nonneg; lia). nia.
    + assert (Hp : (0 < 2 ^ (- (Z.of_nat m - 52)))%Z) by (apply Z.pow_pos_nonneg; lia).
      apply Z.div_le_lower_bound; [exact Hp|].
      assert (Hle : (2 ^ (- (Z.of_nat m - 52)) <= 2 ^ 52)%Z)
        by (apply Z.pow_le_mono_r; lia).
      assert (H52 : (2 ^ 52 <= 6369051672525773)%Z) by (vm_compute; discriminate).
      lia.
Qed.

(** *** Frame: the builders only append gates *)

Lemma appends_gates_refl c : appends_gates c c.
Proof. exists []. rewrite extend_nil. reflexivity. Qed.

Lemma appends_gates_trans c1 c2 c3 :
  appends_gates c1 c2 -> appends_gates c2 c3 -> appends_gates c1 c3.
Proof.
  intros [g1 ->] [g2 ->]. exists (g1 ++ g2).
  rewrite extend_extend, map_app. reflexivity.
Qed.

Lemma gates_only_ret {A} (a : A) : gates_only (ret a).
Proof. intros c. apply appends_gates_refl. Qed.

Lemma gates_only_lift {A} (x : result A) : gates_only (lift x).
Proof. intros c. apply appends_gates_refl. Qed.

Lemma gates_only_checked ok e (gs : list gate) :
  gates_only (checked ok e (map Gate gs)).
Proof.
  intros c. unfold checked. destruct (ok c); simpl.
  - exists gs. reflexivity.
  - apply appends_gates_refl.
Qed.

Lemma gates_only_h q : gates_only (h q).
Proof. apply (gates_only_checked _ _ [H q]). Qed.

Lemma gates_only_x q : gates_only (x q).
Proof. apply (gates_only_checked _ _ [X q]). Qed.

Lemma gates_only_broadcast g qs : gates_only (broadcast g qs).
Proof.
  unfold broadcast. rewrite <- (map_map g Gate). apply gates_only_checked.
Qed.

Lemma gates_only_mcx qs t : gates_only (mcx qs t).
Proof.
  destruct qs as [[|n]|[|q l]]; cbn [mcx]; try apply gates_only_lift.
  apply (gates_only_checked _ _ [MCX (q :: l) t]).
Qed.

Lemma gates_only_bind {A B} (m : build A) (k : A -> build B) :
  gates_only m -> (forall a, gates_only (k a)) -> gates_only (bind m k).
Proof.
  intros Hm Hk c. specialize (Hm c). unfold bind.
  destruct (m c) as [c1 [a|e]]; simpl in Hm.
  - eapply appends_gates_trans; [exact Hm | apply Hk].
  - exact Hm.
Qed.

Lemma gates_only_for_each {A} (body : A -> build unit) (xs : list A) :
  (forall a, gates_only (body a)) -> gates_only (for_each body xs).
Proof.
  intros Hb. induction xs as [|a xs IH]; simpl.
  - apply gates_only_ret.
  - apply gates_only_bind; [apply Hb | intros _; exact IH].
Qed.

Lemma gates_only_flip_zero_bits qs s : gates_only (flip_zero_bits qs s).
Proof.
  apply gates_only_for_each. intros [i ch]. unfold flip_body.
  destruct (Ascii.eqb ch "0"%char).
  - apply gates_only_bind; [apply gates_only_lift | intros q; apply gates_only_x].
  - apply gates_only_ret.
Qed.

Lemma gates_only_last (k : nat -> build unit) qs :
  (forall q, gates_only (k q)) ->
  gates_only (bind (lift (Py.getitem_last qs)) k).
Proof. intros Hk. apply gates_only_bind; [apply gates_only_lift | exact Hk]. Qed.

Lemma gates_only_oracle qs t : gates_only (oracle qs t).
Proof.
  unfold oracle. cbv zeta.
  repeat first
    [ apply gates_only_flip_zero_bits
    | apply gates_only_last; intros ?; first [apply gates_only_h | apply gates_only_mcx]
    | apply gates_only_bind; [|intros _] ].
Qed.

Lemma gates_only_diffuser qs : gates_only (diffuser qs).
Proof.
  unfold diffuser, h_all, x_all.
  repeat first
    [ apply gates_only_broadcast
    | apply gates_only_last; intros ?; first [apply gates_only_h | apply gates_only_mcx]
    | apply gates_only_bind; [|intros _] ].
Qed.

Lemma gates_only_for_range (k : nat) (body : build unit) :
  gates_only body -> gates_only (for_range k body).
Proof.
  intros Hb. induction k as [|k IH]; cbn [for_range].
  - apply gates_only_ret.
  - apply gates_only_bind; [exact Hb | intros _; exact IH].
Qed.

Lemma gates_only_pair (qs : Py.sequence) (t : Z) :
  gates_only (oracle qs t ;;; diffuser qs).
Proof.
  apply gates_only_bind; [apply gates_only_oracle|].
  intros _. apply gates_only_diffuser.
Qed.

Lemma appends_gates_num_qubits c c' :
  appends_gates c c' ->
  num_qubits c' = num_qubits c /\ num_clbits c' = num_clbits c.
Proof. intros [gs ->]. split; reflexivity. Qed.

End Driver.

(** * Out-of-range targets and boundary targets *)

Section Targets.

Lemma length_zfill (w : nat) (s : list ascii) :
  length (Py.zfill w s) = Nat.max w (length s).
Proof. unfold Py.zfill. rewrite length_app, repeat_length. lia. Qed.

Lemma format_0b_min_width (t : Z) (n : nat) : n <= length (Py.format_0b t n).
Proof.
  destruct t as [|p|p]; simpl; rewrite length_zfill; lia.
Qed.

Lemma format_0b_wide (t : Z) (n : nat) :
  (2 ^ Z.of_nat n <= t)%Z -> n < length (Py.format_0b t n).
Proof.
  intros Ht.
  assert (0 < 2 ^ Z.of_nat n)%Z by (apply Z.pow_pos_nonneg; lia).
  destruct t as [|p|p]; try lia.
  simpl. rewrite length_zfill, length_bin_digits.
  pose proof (size_nat_gt p n Ht). lia.
Qed.

Lemma flip_zero_bits_num_qubits qs s c :
  num_qubits (fst (flip_zero_bits qs s c)) = num_qubits c.
Proof.
  apply (appends_gates_num_qubits c), gates_only_flip_zero_bits.
Qed.

(** In a circuit that holds the first [n >= 1] positions, the oracle raises
    [IndexError] exactly when its first bit-flip loop does, that is when a
    character '0' sits at index [n] or beyond.  Otherwise the loop returns
    and the outcome is decided at the multi-controlled X: the oracle
    returns on a list of two or more positions, raises [TypeError] on a
    range of two or more, and [CircuitError] on a single position. *)
Lemma oracle_result (n : nat) (qs : Py.sequence) (t : Z) c :
  1 <= n -> first_positions n qs -> n <= num_qubits c ->
  (snd (oracle qs t c) = Raise IndexError /\
   snd (flip_zero_bits qs (Py.format_0b t n) c) = Raise IndexError /\
   exists i, nth_error (Py.format_0b t n) i = Some "0"%char /\ n <= i)
  \/
  (snd (flip_zero_bits qs (Py.format_0b t n) c) = Ok tt /\
   (forall i, nth_error (Py.format_0b t n) i = Some "0"%char -> i < n) /\
   (n = 1 -> snd (oracle qs t c) = Raise CircuitError) /\
   (2 <= n -> qs = Py.range n -> snd (oracle qs t c) = Raise TypeError) /\
   (2 <= n -> qs = Py.List (seq 0 n) -> snd (oracle qs t c) = Ok tt)).
Proof.
  intros Hn Hqs Hc. rewrite oracle_unfold, (len_first_positions _ _ Hqs).
  set (s := Py.format_0b t n).
  pose proof (first_positions_in_circuit _ _ _ Hqs Hc) as Hin.
  pose proof (flip_zero_bits_num_qubits qs s c) as Hnq.
  rewrite !flip_zero_bits_unfold in *.
  destruct (flip_loop_result qs s 0 c Hin) as [[Hr [i [Hi Hl]]]|[Hr Hall]];
    rewrite (len_first_positions _ _ Hqs) in *.
  - left. split; [|split; [exact Hr | exists i; split; [exact Hi | lia]]].
    unfold bind at 1.
    destruct (for_each (flip_body qs) (combine (seq 0 (length s)) s) c)
      as [c1 [[]|e]]; simpl in Hr; [discriminate | injection Hr as ->; reflexivity].
  - right. split; [exact Hr|].
    split; [intros i Hi; specialize (Hall i Hi); lia|].
    destruct (for_each (flip_body qs) (combine (seq 0 (length s)) s) c)
      as [c1 [[]|e]] eqn:E; simpl in Hr, Hnq; [|discriminate].
    rewrite (bind_ok _ _ _ _ _ E).
    split; [|split].
    + intros ->. rewrite (phase_flip_single qs 0); [reflexivity| |lia].
      apply (items_first_positions _ _ Hqs).
    + intros Hn2 ->. rewrite phase_flip_range by lia. reflexivity.
    + intros Hn2 ->.
      rewrite phase_flip_list;
        [|rewrite length_seq; exact Hn2 | apply seq_NoDup
         |intros q Hq; apply in_seq in Hq; lia].
      match goal with
      | |- snd (for_each _ _ ?c') = _ =>
          destruct (flip_loop_result (Py.List (seq 0 n)) s 0 c')
            as [[_ [i [Hi Hl]]]|[Hr2 _]]
      end.
      * intros q Hq. apply in_seq in Hq. simpl. lia.
      * rewrite len_list_seq in Hl. specialize (Hall i Hi). lia.
      * exact Hr2.
Qed.

(** On an empty register the bit-flip loop appends nothing. *)
Lemma flip_loop_empty (qs : Py.sequence) (s : list ascii) : forall k c,
  Py.len qs = 0 ->
  for_each (flip_body qs) (combine (seq k (length s)) s) c = (c, Ok tt) \/
  for_each (flip_body qs) (combine (seq k (length s)) s) c = (c, Raise IndexError).
Proof.
  induction s as [|ch s IH]; intros k c Hq; cbn [length seq combine for_each].
  - left. reflexivity.
  - destruct (Ascii.eqb ch "0"%char) eqn:Ech.
    + right. apply bind_raise. unfold flip_body. rewrite Ech.
      unfold bind, lift, Py.getitem.
      destruct (nth_error (Py.items qs) k) as [q|] eqn:E; [|reflexivity].
      apply nth_error_In in E. unfold Py.len in Hq.
      destruct (Py.items qs); [contradiction | discriminate].
    + assert (Hb : flip_body qs (k, ch) c = (c, Ok tt))
        by (unfold flip_body; rewrite Ech; reflexivity).
      rewrite (bind_ok _ _ _ _ _ Hb). apply IH. exact Hq.
Qed.

(** An empty register makes the oracle raise [IndexError] whatever the
    target, in the loop or at [qubits[-1]], with nothing appended. *)
Lemma oracle_empty_register (qs : Py.sequence) (t : Z) c :
  Py.len qs = 0 -> oracle qs t c = (c, Raise IndexError).
Proof.
  intros Hq. rewrite oracle_unfold, !flip_zero_bits_unfold.
  destruct (flip_loop_empty qs (Py.format_0b t (Py.len qs)) 0 c Hq) as [E|E].
  - erewrite bind_ok by exact E.
    rewrite getitem_last_empty by exact Hq. reflexivity.
  - erewrite bind_raise by exact E. reflexivity.
Qed.

Lemma map_constant {A B} (f : A -> B) (b : B) (l : list A) :
  (forall a, In a l -> f a = b) -> map f l = repeat b (length l).
Proof.
  induction l as [|a l IH]; intros Hf; [reflexivity|].
  simpl. rewrite Hf by (left; reflexivity).
  rewrite IH by (intros; apply Hf; right; assumption). reflexivity.
Qed.

Lemma encoding_zero (n : nat) : encoding n 0 = repeat false n.
Proof.
  unfold encoding. rewrite map_constant with (b := false).
  - rewrite length_seq. reflexivity.
  - intros i _. apply Z.testbit_0_l.
Qed.

Lemma encoding_ones (n : nat) : encoding n (2 ^ Z.of_nat n - 1) = repeat true n.
Proof.
  unfold encoding. rewrite map_constant with (b := true).
  - rewrite length_seq. reflexivity.
  - intros i Hi. apply in_seq in Hi.
    replace (2 ^ Z.of_nat n - 1)%Z with (Z.ones (Z.of_nat n))
      by (rewrite Z.ones_equiv; lia).
    apply Z.ones_spec_low. lia.
Qed.

Lemma zero_positions_ones (n : nat) : zero_positions (repeat true n) = [].
Proof.
  induction n as [|n IH]; [reflexivity|].
  cbn [repeat]. rewrite zero_positions_cons, IH. reflexivity.
Qed.

End Targets.

(** * How the driver ends *)

Section DriverOutcome.

Lemma h_all_range (n : nat) c :
  1 <= n -> n <= num_qubits c ->
  h_all (Py.range n) c = (extend c (map Gate (map H (seq 0 n))), Ok tt).
Proof.
  intros Hn Hc. unfold h_all. rewrite broadcast_ok; [reflexivity| |].
  - rewrite len_range. exact Hn.
  - intros q Hq. rewrite items_range in Hq. apply in_seq in Hq. lia.
Qed.

(** With no position at all the driver is stopped by its first call. *)
Lemma grover_search_zero (t : Z) :
  grover_search t 0 = (new_circuit 0 0, Raise CircuitError).
Proof. reflexivity. Qed.

(** With at least one position and a count that could be computed, the
    driver ends where its first oracle call ends. *)
Lemma grover_search_first_oracle (n : nat) (t : Z) c1 e :
  1 <= n <= 1023 ->
  oracle (Py.range n) t (mkQC n n (map Gate (map H (seq 0 n)))) = (c1, Raise e) ->
  grover_search t n = (c1, Raise e).
Proof.
  intros Hn Ho. unfold grover_search, grover_build.
  erewrite bind_ok by (apply h_all_range; simpl; lia).
  destruct (num_iterations_positive n) as [k [Hk Hpos]]; [lia|].
  rewrite Hk. unfold lift at 1. unfold bind at 1.
  destruct (Z.to_nat k) as [|k'] eqn:Ek; [lia|].
  apply bind_raise. apply for_range_raise. apply bind_raise. exact Ho.
Qed.

End DriverOutcome.

(** * Worked examples *)

Section Examples.

Lemma half_R : (/ sqrt 2 * / sqrt 2 = / 2)%R.
Proof.
  pose proof (inv_sqrt2_spec R_amp) as E. cbn in E. lra.
Qed.

Example format_examples :
  Py.format_0b 5 3 = ["1"; "0"; "1"]%char /\
  Py.format_0b 3 3 = ["0"; "1"; "1"]%char /\
  Py.format_0b 0 3 = ["0"; "0"; "0"]%char /\
  Py.format_0b 8 3 = ["1"; "0"; "0"; "0"]%char /\
  Py.format_0b (-5) 6 = ["-"; "0"; "0"; "1"; "0"; "1"]%char /\
  Py.format_0b 0 0 = ["0"]%char.
Proof. repeat split. Qed.

Example num_iterations_examples :
  num_iterations 1 = Ok 1%Z /\ num_iterations 2 = Ok 2%Z /\
  num_iterations 3 = Ok 2%Z /\ num_iterations 4 = Ok 4%Z /\
  num_iterations 5 = Ok 5%Z /\ num_iterations 7 = Ok 11%Z.
Proof. repeat split. Qed.

Example oracle_3_on_3 :
  oracle (Py.List [0; 1; 2]) 3 (new_circuit 3 3)
  = (mkQC 3 3 (map Gate [X 0; H 2; MCX [0; 1] 2; H 2; X 0]), Ok tt) /\
  oracle (Py.range 3) 3 (new_circuit 3 3)
  = (mkQC 3 3 (map Gate [X 0; H 2]), Raise TypeError).
Proof. split; reflexivity. Qed.

Example diffuser_on_3 :
  diffuser (Py.List [0; 1; 2]) (new_circuit 3 3)
  = (mkQC 3 3 (map Gate [H 0; H 1; H 2; X 0; X 1; X 2; H 2; MCX [0; 1] 2; H 2;
                          X 0; X 1; X 2; H 0; H 1; H 2]), Ok tt) /\
  diffuser (Py.range 3) (new_circuit 3 3)
  = (mkQC 3 3 (map Gate [H 0; H 1; H 2; X 0; X 1; X 2; H 2]), Raise TypeError).
Proof. split; reflexivity. Qed.

Example grover_search_5_3 :
  grover_search 5 3
  = (mkQC 3 3 (map Gate [H 0; H 1; H 2; X 1; H 2]), Raise TypeError).
Proof. vm_compute. reflexivity. Qed.

Example grover_search_8_3 :
  grover_search 8 3
  = (mkQC 3 3 (map Gate [H 0; H 1; H 2; X 1; X 2]), Raise IndexError).
Proof. vm_compute. reflexivity. Qed.

Example measure_examples :
  measure (Py.range 2) (Py.range 2) (new_circuit 2 2)
  = (mkQC 2 2 [Measure 0 0; Measure 1 1], Ok tt) /\
  measure (Py.range 1) (Py.range 2) (new_circuit 2 2)
  = (mkQC 2 2 [Measure 0 0; Measure 0 1], Ok tt) /\
  measure (Py.range 2) (Py.range 1) (new_circuit 2 2)
  = (new_circuit 2 2, Raise CircuitError) /\
  measure (Py.range 3) (Py.range 3) (new_circuit 2 3)
  = (new_circuit 2 3, Raise CircuitError).
Proof. repeat split. Qed.

(** The basis state marked for a target carries the most significant bit
    at position 0.  Read with position 0 as the least significant bit, its
    label is the target with its bits reversed. *)
Remark marked_state_labels :
  encoding 3 1 = [false; false; true] /\ little_endian (encoding 3 1) = 4%Z /\
  encoding 3 3 = [false; true; true] /\ little_endian (encoding 3 3) = 6%Z /\
  encoding 3 5 = [true; false; true] /\ little_endian (encoding 3 5) = 5%Z.
Proof. repeat split. Qed.

(** *** 105 positions: the rounded square root *)

Lemma num_iterations_105 : num_iterations 105 = Ok 6369051672525773%Z.
Proof. vm_compute. reflexivity. Qed.

Lemma sqrt_2_105 : Z.sqrt (2 ^ Z.of_nat 105) = 6369051672525772%Z.
Proof. vm_compute. reflexivity. Qed.

(** Beyond 1023 positions the driver stops after the Hadamard layer. *)
Remark grover_search_overflow (n : nat) (t : Z) :
  1024 <= n ->
  grover_search t n = (mkQC n n (map Gate (map H (seq 0 n))), Raise OverflowError).
Proof.
  intros Hn. unfold grover_search, grover_build, h_all.
  erewrite bind_ok
    by (apply broadcast_ok;
        [rewrite len_range; lia
        |intros q Hq; rewrite items_range in Hq; apply in_seq in Hq; simpl; lia]).
  rewrite num_iterations_overflow by exact Hn. reflexivity.
Qed.

End Examples.

(** * The oracle *)

(** C1, as the code has it.  For a register of [n >= 2] positions, given as
    the list of the first [n] positions of a circuit that has them, and a
    target [t] in [0, 2^n - 1], the oracle appends X on each position whose
    bit of the [n]-bit encoding of [t] is 0, H on the last position, the
    multi-controlled X, H on the last position, and the same X gates again,
    and returns; as a map on amplitude vectors this sequence negates the
    amplitude of the basis state whose bit at position [i] is character [i]
    of the encoding, and leaves every other amplitude as it was. *)
Theorem oracle_flips_target_phase
  (K : amplitude_ring) (n : nat) (t : Z) (c : QuantumCircuit)
  (a : vector K) (s : basis) :
  2 <= n -> n <= num_qubits c -> (0 <= t < 2 ^ Z.of_nat n)%Z -> length s = n ->
  oracle (Py.List (seq 0 n)) t c = (extend c (map Gate (oracle_gates n t)), Ok tt) /\
  run (oracle_gates n t) a s
  = if list_eq_dec bool_dec s (encoding n t) then aopp K (a s) else a s.
Proof.
  intros Hn Hc Ht Hs. split; [apply oracle_list_seq; assumption|].
  pose proof (run_mark_pattern K (encoding n t) a s) as P.
  rewrite length_encoding in P. apply P; [lia | assumption].
Qed.

Lemma oracle_flips_target_phase_witness :
  let a : vector R_amp := fun _ => 1%R in
  let s := [true; false; true] in
  2 <= 3 /\ 3 <= num_qubits (new_circuit 3 3) /\
  (0 <= 5 < 2 ^ Z.of_nat 3)%Z /\ length s = 3 /\
  oracle (Py.List (seq 0 3)) 5 (new_circuit 3 3)
  = (extend (new_circuit 3 3) (map Gate (oracle_gates 3 5)), Ok tt) /\
  run (oracle_gates 3 5) a s
  = if list_eq_dec bool_dec s (encoding 3 5) then aopp R_amp (a s) else a s.
Proof.
  intros a s.
  split; [lia|]. split; [simpl; lia|]. split; [cbn; lia|]. split; [reflexivity|].
  apply (oracle_flips_target_phase R_amp 3 5 (new_circuit 3 3) a s);
    [lia | simpl; lia | cbn; lia | reflexivity].
Defined.

(** C1, the counterexample.  On one position the multi-controlled X would
    have no control, and the circuit refuses it: for the target 0 the oracle
    stops after X and H, for the target 1 after H.  The gates left behind do
    not negate the amplitude of the target: from the vector with amplitude 1
    everywhere they give [2 / sqrt 2] on the state of target 0. *)
Lemma oracle_on_one_position :
  oracle (Py.List [0]) 0 (new_circuit 1 1)
  = (mkQC 1 1 (map Gate [X 0; H 0]), Raise CircuitError) /\
  oracle (Py.List [0]) 1 (new_circuit 1 1)
  = (mkQC 1 1 (map Gate [H 0]), Raise CircuitError) /\
  encoding 1 0 = [false] /\
  run [X 0; H 0] (fun _ : basis => 1%R : R_amp) [false] <> (- 1)%R.
Proof.
  split; [reflexivity|]. split; [reflexivity|]. split; [reflexivity|].
  cbn [run fold_left apply_gate flip set_bit update bit nth signed
       R_amp amul aadd inv_sqrt2].
  assert (Hr : (0 < / sqrt 2)%R) by (apply Rinv_0_lt_compat, sqrt_lt_R0; lra).
  nra.
Qed.

(** C7, as the code has it.  For a register of [n >= 2] positions, given as
    the list of the first [n] positions of a circuit that has them, the
    targets [0] and [2^n - 1] make the oracle return; it appends X on every
    position around the phase flip for [0], the phase flip alone for
    [2^n - 1], and the sequence negates exactly the amplitude of the all-zero,
    respectively the all-one, basis state. *)
Theorem oracle_boundary_targets
  (K : amplitude_ring) (n : nat) (c : QuantumCircuit) (a : vector K) (s : basis) :
  2 <= n -> n <= num_qubits c -> length s = n ->
  (oracle (Py.List (seq 0 n)) 0 c
   = (extend c (map Gate (map X (seq 0 n) ++ phase_flip_gates n ++ map X (seq 0 n))),
      Ok tt) /\
   run (map X (seq 0 n) ++ phase_flip_gates n ++ map X (seq 0 n)) a s
   = if list_eq_dec bool_dec s (repeat false n) then aopp K (a s) else a s)
  /\
  (oracle (Py.List (seq 0 n)) (2 ^ Z.of_nat n - 1) c
   = (extend c (map Gate (phase_flip_gates n)), Ok tt) /\
   run (phase_flip_gates n) a s
   = if list_eq_dec bool_dec s (repeat true n) then aopp K (a s) else a s).
Proof.
  intros Hn Hc Hs.
  assert (Hpow : (0 < 2 ^ Z.of_nat n)%Z) by (apply Z.pow_pos_nonneg; lia).
  split; split.
  - rewrite oracle_list_seq by (try assumption; lia).
    unfold oracle_gates. rewrite encoding_zero, zero_positions_zeros. reflexivity.
  - apply run_mark_zeros; [lia | assumption].
  - rewrite oracle_list_seq by (try assumption; lia).
    unfold oracle_gates. rewrite encoding_ones, zero_positions_ones.
    cbn [map app]. rewrite app_nil_r. reflexivity.
  - pose proof (run_mark_pattern K (repeat true n) a s) as P.
    rewrite repeat_length, zero_positions_ones in P.
    cbn [map app] in P. rewrite app_nil_r in P. apply P; [lia | assumption].
Qed.

Lemma oracle_boundary_targets_witness :
  let a : vector R_amp := fun _ => 1%R in
  let s := [false; false; false] in
  let c := new_circuit 3 3 in
  2 <= 3 /\ 3 <= num_qubits c /\ length s = 3 /\
  (oracle (Py.List (seq 0 3)) 0 c
   = (extend c (map Gate (map X (seq 0 3) ++ phase_flip_gates 3 ++ map X (seq 0 3))),
      Ok tt) /\
   run (map X (seq 0 3) ++ phase_flip_gates 3 ++ map X (seq 0 3)) a s
   = if list_eq_dec bool_dec s (repeat false 3) then aopp R_amp (a s) else a s)
  /\
  (oracle (Py.List (seq 0 3)) (2 ^ Z.of_nat 3 - 1) c
   = (extend c (map Gate (phase_flip_gates 3)), Ok tt) /\
   run (phase_flip_gates 3) a s
   = if list_eq_dec bool_dec s (repeat true 3) then aopp R_amp (a s) else a s).
Proof.
  intros a s c.
  split; [lia|]. split; [simpl; lia|]. split; [reflexivity|].
  apply (oracle_boundary_targets R_amp 3 c a s); [lia | simpl; lia | reflexivity].
Defined.

(** C7, the counterexample.  On one position both boundary targets, 0 and
    [2^1 - 1], make the oracle raise [CircuitError] at the multi-controlled
    X, which has no control there, whether the register is a range or a
    list; no index is out of range, but the oracle does not complete and
    the phase flip is not appended. *)
Lemma oracle_boundary_one_position :
  oracle (Py.range 1) 0 (new_circuit 1 1)
  = (mkQC 1 1 (map Gate [X 0; H 0]), Raise CircuitError) /\
  oracle (Py.range 1) (2 ^ Z.of_nat 1 - 1) (new_circuit 1 1)
  = (mkQC 1 1 (map Gate [H 0]), Raise CircuitError) /\
  snd (oracle (Py.List (seq 0 1)) 0 (new_circuit 1 1)) = Raise CircuitError /\
  snd (oracle (Py.List (seq 0 1)) (2 ^ Z.of_nat 1 - 1) (new_circuit 1 1))
  = Raise CircuitError.
Proof. repeat split. Qed.

(** * The diffuser *)

(** C2, as the code has it.  For a register of [n >= 2] positions, given as
    the list of the first [n] positions of a circuit that has them, the
    diffuser appends H on every position, X on every position, H on the last
    position, the multi-controlled X, H on the last position, X on every
    position and H on every position, and returns; as a map on amplitude
    vectors this sequence sends every amplitude [a s] to [a s - 2 * mean],
    the negative of [2 * mean - a s], where [mean] is the average of the
    [2^n] amplitudes. *)
Theorem diffuser_subtracts_twice_mean
  (K : amplitude_ring) (n : nat) (c : QuantumCircuit) (a : vector K) (s : basis) :
  2 <= n -> n <= num_qubits c -> length s = n ->
  diffuser (Py.List (seq 0 n)) c = (extend c (map Gate (diffuser_gates n)), Ok tt) /\
  run (diffuser_gates n) a s
  = asub K (a s) (amul K (aadd K (aone K) (aone K)) (mean n a)) /\
  amul K (pow K (aadd K (aone K) (aone K)) n) (mean n a) = total n a /\
  length (all_states n) = 2 ^ n.
Proof.
  intros Hn Hc Hs. split; [apply diffuser_list_seq; assumption|].
  split; [apply run_diffuser; [lia | assumption]|].
  split; [apply mean_average | apply length_all_states].
Qed.

Lemma diffuser_subtracts_twice_mean_witness :
  let a := unit_vector_00 in
  let s := [false; true] in
  let c := new_circuit 2 2 in
  2 <= 2 /\ 2 <= num_qubits c /\ length s = 2 /\
  diffuser (Py.List (seq 0 2)) c = (extend c (map Gate (diffuser_gates 2)), Ok tt) /\
  run (diffuser_gates 2) a s
  = asub R_amp (a s) (amul R_amp (aadd R_amp (aone R_amp) (aone R_amp)) (mean 2 a)) /\
  amul R_amp (pow R_amp (aadd R_amp (aone R_amp) (aone R_amp)) 2) (mean 2 a)
  = total 2 a /\
  length (all_states 2) = 2 ^ 2.
Proof.
  intros a s c.
  split; [lia|]. split; [simpl; lia|]. split; [reflexivity|].
  apply (diffuser_subtracts_twice_mean R_amp 2 c a s); [lia | simpl; lia | reflexivity].
Defined.

(** C2, the counterexample.  On two positions, with amplitude 1 on the
    all-zero state and 0 elsewhere, the mean is 1/4; the gates the diffuser
    appends leave amplitude 1/2 on the all-zero state, not
    [2 * 1/4 - 1 = -1/2]. *)
Lemma diffuser_not_two_mean_minus :
  diffuser (Py.List [0; 1]) (new_circuit 2 2)
  = (extend (new_circuit 2 2) (map Gate (diffuser_gates 2)), Ok tt) /\
  mean 2 unit_vector_00 = (/ 4)%R /\
  run (diffuser_gates 2) unit_vector_00 [false; false] = (/ 2)%R /\
  run (diffuser_gates 2) unit_vector_00 [false; false]
  <> (2 * mean 2 unit_vector_00 - unit_vector_00 [false; false])%R.
Proof.
  assert (Hm : mean 2 unit_vector_00 = (/ 4)%R).
  { unfold mean, total.
    cbn [all_states map app sum fold_right pow unit_vector_00
         R_amp amul aadd azero aone inv_sqrt2].
    rewrite half_R. lra. }
  assert (Hr : run (diffuser_gates 2) unit_vector_00 [false; false] = (/ 2)%R).
  { rewrite (run_diffuser R_amp 2 unit_vector_00 [false; false]) by (lia || reflexivity).
    rewrite Hm. cbn [unit_vector_00 R_amp amul aadd asub aone]. lra. }
  split; [reflexivity|]. split; [exact Hm|]. split; [exact Hr|].
  rewrite Hr, Hm. cbn [unit_vector_00]. lra.
Qed.



(** * The search driver *)

(** C3, what the code does.  For [2 <= n <= 1023] positions and a target in
    [0, 2^n - 1] the driver builds a circuit with [n] quantum positions and
    [n] classical slots, appends H on every position and enters its loop;
    the first oracle call appends its first X gates and the H on the last
    position, and then raises [TypeError]: the register is [range(n)], its
    slice is a range, and the multi-controlled X takes its controls as a
    list.  The driver stops there, with no oracle-diffuser pair completed
    and no measurement; the diffuser would stop at the same call. *)
Theorem grover_search_structure (n : nat) (t : Z) :
  2 <= n <= 1023 -> (0 <= t < 2 ^ Z.of_nat n)%Z ->
  grover_search t n
  = (mkQC n n
       (map Gate (map H (seq 0 n) ++
                  map X (zero_positions (encoding n t)) ++ [H (n - 1)])),
     Raise TypeError) /\
  (forall c, n <= num_qubits c ->
     oracle (Py.range n) t c
     = (extend c (map Gate (map X (zero_positions (encoding n t)) ++ [H (n - 1)])),
        Raise TypeError)) /\
  (forall c, n <= num_qubits c ->
     diffuser (Py.range n) c
     = (extend c (map Gate (map H (seq 0 n) ++ map X (seq 0 n) ++ [H (n - 1)])),
        Raise TypeError)).
Proof.
  intros Hn Ht. split; [|split].
  - apply grover_search_first_oracle; [lia|].
    rewrite oracle_range by (try exact Ht; simpl; lia).
    unfold extend. cbn [num_qubits num_clbits data].
    rewrite <- map_app. reflexivity.
  - intros c Hc. apply oracle_range; [lia | exact Hc | exact Ht].
  - intros c Hc. apply diffuser_range; [lia | exact Hc].
Qed.

Lemma grover_search_structure_witness :
  2 <= 3 <= 1023 /\ (0 <= 5 < 2 ^ Z.of_nat 3)%Z /\
  grover_search 5 3
  = (mkQC 3 3
       (map Gate (map H (seq 0 3) ++
                  map X (zero_positions (encoding 3 5)) ++ [H (3 - 1)])),
     Raise TypeError) /\
  (forall c, 3 <= num_qubits c ->
     oracle (Py.range 3) 5 c
     = (extend c (map Gate (map X (zero_positions (encoding 3 5)) ++ [H (3 - 1)])),
        Raise TypeError)) /\
  (forall c, 3 <= num_qubits c ->
     diffuser (Py.range 3) c
     = (extend c (map Gate (map H (seq 0 3) ++ map X (seq 0 3) ++ [H (3 - 1)])),
        Raise TypeError)).
Proof.
  split; [lia|]. split; [cbn; lia|].
  apply (grover_search_structure 3 5); [lia | cbn; lia].
Defined.

(** C4, as the code has it.  For a register of [n] positions, with
    [n <= 104] or [n] even and at most 1022, the iteration count [k] that the
    driver computes is the floor of the square root of [2^n], that is
    [k^2 <= 2^n < (k+1)^2], and it is the bound of the loop of oracle and
    diffuser calls that the driver enters after its Hadamard layer; for
    [n = 3] the count is 2. *)
Theorem iteration_count_floor_sqrt (n : nat) :
  n <= 104 \/ (Nat.even n = true /\ n <= 1022) ->
  exists k : Z,
    num_iterations n = Ok k /\
    (k * k <= 2 ^ Z.of_nat n < (k + 1) * (k + 1))%Z /\
    (forall t c, 1 <= n <= num_qubits c ->
       grover_build t n c
       = (for_range (Z.to_nat k)
            (oracle (Py.range n) t ;;; diffuser (Py.range n)) ;;;
          measure (Py.range n) (Py.range n))
           (extend c (map Gate (map H (seq 0 n))))) /\
    num_iterations 3 = Ok 2%Z.
Proof.
  intros Hm. exists (Z.sqrt (2 ^ Z.of_nat n)).
  assert (Hk : num_iterations n = Ok (Z.sqrt (2 ^ Z.of_nat n))).
  { apply num_iterations_exact; exact Hm. }
  split; [exact Hk|]. split; [|split].
  - assert (H0 : (0 <= 2 ^ Z.of_nat n)%Z) by (apply Z.pow_nonneg; lia).
    pose proof (Z.sqrt_spec _ H0) as Hs. cbv zeta in Hs.
    unfold Z.succ in Hs. exact Hs.
  - intros t c Hn. unfold grover_build.
    erewrite bind_ok by (apply h_all_range; lia).
    rewrite Hk. reflexivity.
  - reflexivity.
Qed.

Lemma iteration_count_floor_sqrt_witness :
  (3 <= 104 \/ (Nat.even 3 = true /\ 3 <= 1022)) /\
  exists k : Z,
    num_iterations 3 = Ok k /\
    (k * k <= 2 ^ Z.of_nat 3 < (k + 1) * (k + 1))%Z /\
    (forall t c, 1 <= 3 <= num_qubits c ->
       grover_build t 3 c
       = (for_range (Z.to_nat k)
            (oracle (Py.range 3) t ;;; diffuser (Py.range 3)) ;;;
          measure (Py.range 3) (Py.range 3))
           (extend c (map Gate (map H (seq 0 3))))) /\
    num_iterations 3 = Ok 2%Z.
Proof.
  split; [left; lia|].
  apply (iteration_count_floor_sqrt 3). left; lia.
Defined.

(** C4, the counterexample.  For 105 positions the square root of [2^105]
    lies between 6369051672525772 and 6369051672525773 and the double nearest
    to it is the larger one, so the count the driver computes exceeds the
    floor by one. *)
Lemma iteration_count_105 :
  num_iterations 105 = Ok 6369051672525773%Z /\
  Z.sqrt (2 ^ Z.of_nat 105) = 6369051672525772%Z /\
  num_iterations 105 <> Ok (Z.sqrt (2 ^ Z.of_nat 105)).
Proof.
  split; [exact num_iterations_105|]. split; [exact sqrt_2_105|].
  rewrite num_iterations_105, sqrt_2_105. discriminate.
Qed.

(** * The binary encoding and targets out of range *)

(** C8, as the code has it.  For a register of [n >= 1] positions and a
    target in [0, 2^n - 1] the encoding has exactly [n] characters: the
    shortest binary numeral of the target, padded with zeros on the left;
    character [i] is bit [n - 1 - i] of the target and decides whether
    register position [i] is flipped: in a circuit that has the [n]
    positions the bit-flip loop appends X on the positions whose character
    is '0' and returns, and in any circuit it appends these X gates up to
    the first position that is not the circuit's, where it raises
    [CircuitError].  For any integer the encoding has at least [n]
    characters. *)
Theorem encoding_width_in_range (n : nat) (t : Z) (c : QuantumCircuit) :
  1 <= n -> (0 <= t < 2 ^ Z.of_nat n)%Z ->
  length (Py.format_0b t n) = n /\
  Py.format_0b t n
  = repeat "0"%char (n - length (Py.format_0b t 0)) ++ Py.format_0b t 0 /\
  (forall i, i < n ->
     nth_error (Py.format_0b t n) i
     = Some (char_of_bit (Z.testbit t (Z.of_nat (n - 1 - i))))) /\
  (n <= num_qubits c ->
   flip_zero_bits (Py.range n) (Py.format_0b t n) c
   = (extend c (map Gate (map X (zero_positions (encoding n t)))), Ok tt)) /\
  flip_zero_bits (Py.range n) (Py.format_0b t n) c
  = (extend c
       (map Gate (map X (inside_prefix (num_qubits c)
                           (zero_positions (encoding n t))))),
     if forallb (in_circuit c) (zero_positions (encoding n t))
     then Ok tt else Raise CircuitError) /\
  (forall t' : Z, n <= length (Py.format_0b t' n)).
Proof.
  intros Hn Ht.
  pose proof (format_0b_encoding n t Hn Ht) as E.
  split; [|split; [|split; [|split; [|split]]]].
  - rewrite E, length_map. apply length_encoding.
  - destruct t as [|p|p]; [| |lia]; reflexivity.
  - intros i Hi. rewrite E. unfold encoding.
    rewrite nth_error_map, nth_error_map.
    rewrite nth_error_nth' with (d := 0) by (rewrite length_seq; exact Hi).
    rewrite seq_nth by exact Hi. reflexivity.
  - intros Hc. rewrite E.
    apply (flip_zero_bits_pattern n); [left; reflexivity | exact Hc|].
    apply length_encoding.
  - rewrite E.
    apply (flip_zero_bits_total n); [left; reflexivity|].
    apply length_encoding.
  - intros t'. apply format_0b_min_width.
Qed.

Lemma encoding_width_in_range_witness :
  let c := new_circuit 3 3 in
  1 <= 3 /\ (0 <= 3 < 2 ^ Z.of_nat 3)%Z /\
  length (Py.format_0b 3 3) = 3 /\
  Py.format_0b 3 3
  = repeat "0"%char (3 - length (Py.format_0b 3 0)) ++ Py.format_0b 3 0 /\
  (forall i, i < 3 ->
     nth_error (Py.format_0b 3 3) i
     = Some (char_of_bit (Z.testbit 3 (Z.of_nat (3 - 1 - i))))) /\
  (3 <= num_qubits c ->
   flip_zero_bits (Py.range 3) (Py.format_0b 3 3) c
   = (extend c (map Gate (map X (zero_positions (encoding 3 3)))), Ok tt)) /\
  flip_zero_bits (Py.range 3) (Py.format_0b 3 3) c
  = (extend c
       (map Gate (map X (inside_prefix (num_qubits c)
                           (zero_positions (encoding 3 3))))),
     if forallb (in_circuit c) (zero_positions (encoding 3 3))
     then Ok tt else Raise CircuitError) /\
  (forall t' : Z, 3 <= length (Py.format_0b t' 3)).
Proof.
  intros c.
  split; [lia|]. split; [cbn; lia|].
  apply (encoding_width_in_range 3 3 c); [lia | cbn; lia].
Defined.

(** C8, the counterexample.  On three positions the target 9 is encoded as
    1001, four characters. *)
Lemma encoding_of_9_on_3 :
  Py.format_0b 9 3 = ["1"; "0"; "0"; "1"]%char /\
  length (Py.format_0b 9 3) <> 3.
Proof. split; [reflexivity | vm_compute; discriminate]. Qed.

(** C6, as the code has it.  For a register of the first [n >= 1] positions
    of a circuit that has them, a range or a list, and a target [t >= 2^n],
    the encoding is wider than [n] characters, and the oracle raises
    [IndexError], in its first bit-flip loop, exactly when some character at
    an index [>= n] is '0'; otherwise that loop returns, having accessed no
    index beyond the register. *)
Theorem wide_encoding_index_error
  (n : nat) (qs : Py.sequence) (t : Z) (c : QuantumCircuit) :
  1 <= n -> first_positions n qs -> n <= num_qubits c ->
  (2 ^ Z.of_nat n <= t)%Z ->
  n < length (Py.format_0b t n) /\
  (snd (oracle qs t c) = Raise IndexError <->
   exists i, n <= i /\ nth_error (Py.format_0b t n) i = Some "0"%char) /\
  (snd (flip_zero_bits qs (Py.format_0b t n) c) = Raise IndexError <->
   exists i, n <= i /\ nth_error (Py.format_0b t n) i = Some "0"%char) /\
  (snd (flip_zero_bits qs (Py.format_0b t n) c) = Ok tt <->
   forall i, nth_error (Py.format_0b t n) i = Some "0"%char -> i < n).
Proof.
  intros Hn Hqs Hc Ht. split; [apply format_0b_wide; exact Ht|].
  destruct (oracle_result n qs t c Hn Hqs Hc)
    as [[Ho [Hf [i [Hi Hl]]]]|[Hf [Hall [H1 [Hr Hli]]]]].
  - split; [|split].
    + split; [intros _; exists i; split; assumption | intros _; exact Ho].
    + split; [intros _; exists i; split; assumption | intros _; exact Hf].
    + split; [rewrite Hf; discriminate|].
      intros Hall. specialize (Hall i Hi). lia.
  - split; [|split].
    + split; [|intros [i [Hl Hi]]; specialize (Hall i Hi); lia].
      intros Ho. exfalso.
      destruct (Nat.eq_dec n 1) as [En|En].
      * rewrite (H1 En) in Ho. discriminate.
      * destruct Hqs as [->| ->].
        -- rewrite Hr in Ho by (try reflexivity; lia). discriminate.
        -- rewrite Hli in Ho by (try reflexivity; lia). discriminate.
    + split; [rewrite Hf; discriminate|].
      intros [i [Hl Hi]]. specialize (Hall i Hi). lia.
    + split; [intros _; exact Hall | intros _; exact Hf].
Qed.

Lemma wide_encoding_index_error_witness :
  let c := new_circuit 3 3 in
  1 <= 3 /\ first_positions 3 (Py.range 3) /\ 3 <= num_qubits c /\
  (2 ^ Z.of_nat 3 <= 8)%Z /\
  3 < length (Py.format_0b 8 3) /\
  (snd (oracle (Py.range 3) 8 c) = Raise IndexError <->
   exists i, 3 <= i /\ nth_error (Py.format_0b 8 3) i = Some "0"%char) /\
  (snd (flip_zero_bits (Py.range 3) (Py.format_0b 8 3) c) = Raise IndexError <->
   exists i, 3 <= i /\ nth_error (Py.format_0b 8 3) i = Some "0"%char) /\
  (snd (flip_zero_bits (Py.range 3) (Py.format_0b 8 3) c) = Ok tt <->
   forall i, nth_error (Py.format_0b 8 3) i = Some "0"%char -> i < 3).
Proof.
  intros c.
  split; [lia|]. split; [left; reflexivity|]. split; [simpl; lia|].
  split; [cbn; lia|].
  apply (wide_encoding_index_error 3 (Py.range 3) 8 c);
    [lia | left; reflexivity | simpl; lia | cbn; lia].
Defined.

(** C6, the counterexample.  On three positions the target 9 has the wider
    encoding 1001; the bit-flip loop flips positions 1 and 2 and returns, no
    index beyond the register is accessed, and on the list register the
    oracle returns.  The target -1 is encoded as -01, which is not wider
    than the register, and the loop returns as well. *)
Lemma out_of_range_without_error :
  (3 < length (Py.format_0b 9 3) /\
   flip_zero_bits (Py.range 3) (Py.format_0b 9 3) (new_circuit 3 3)
   = (mkQC 3 3 (map Gate [X 1; X 2]), Ok tt) /\
   snd (oracle (Py.List [0; 1; 2]) 9 (new_circuit 3 3)) = Ok tt /\
   snd (oracle (Py.range 3) 9 (new_circuit 3 3)) <> Raise IndexError) /\
  (Py.format_0b (-1) 3 = ["-"; "0"; "1"]%char /\
   flip_zero_bits (Py.range 3) (Py.format_0b (-1) 3) (new_circuit 3 3)
   = (mkQC 3 3 (map Gate [X 1]), Ok tt)).
Proof.
  split; [split; [vm_compute; lia|]|].
  - split; [reflexivity|]. split; [reflexivity|].
    vm_compute. discriminate.
  - split; reflexivity.
Qed.

(** C10.  On three positions the target 9, outside [0, 7], is encoded as 1001;
    the character at index 3 is '1', so the bit-flip loop performs no
    out-of-bounds access, and on the list register of a circuit with the
    three positions the oracle returns, having appended X on positions 1 and
    2 around the phase flip.  In general, on the first [n >= 1] positions of
    a circuit, as a range or as a list, the oracle raises [IndexError] only
    when some character at an index [>= n] of the encoding is '0'. *)
Theorem wide_target_without_index_error
  (n : nat) (qs : Py.sequence) (t : Z) (c : QuantumCircuit) :
  1 <= n -> first_positions n qs -> n <= num_qubits c -> 3 <= num_qubits c ->
  (~ (0 <= 9 < 2 ^ Z.of_nat 3)%Z /\
   Py.format_0b 9 3 = ["1"; "0"; "0"; "1"]%char /\
   flip_zero_bits (Py.range 3) (Py.format_0b 9 3) c
   = (extend c (map Gate [X 1; X 2]), Ok tt) /\
   oracle (Py.List [0; 1; 2]) 9 c
   = (extend c (map Gate [X 1; X 2; H 2; MCX [0; 1] 2; H 2; X 1; X 2]), Ok tt)) /\
  (snd (oracle qs t c) = Raise IndexError ->
   exists i, n <= i /\ nth_error (Py.format_0b t n) i = Some "0"%char).
Proof.
  intros Hn Hqs Hc H3.
  assert (Hin : forall q, In q [0; 1; 2] -> q < num_qubits c).
  { intros q Hq. simpl in Hq. lia. }
  assert (Hz : forall i, In i (zero_idx 0 (Py.format_0b 9 3)) -> i < 3).
  { intros i Hi. cbn in Hi. lia. }
  split.
  - split; [cbn; lia|]. split; [reflexivity|]. split.
    + rewrite flip_zero_bits_unfold.
      rewrite (flip_loop_ok (Py.range 3) (Py.format_0b 9 3) 0 c);
        [reflexivity | rewrite len_range; exact Hz | exact Hin].
    + rewrite (oracle_list_any [0; 1; 2] 9 c);
        [reflexivity | simpl; lia | | exact Hin | exact Hz].
      repeat constructor; simpl; lia.
  - intros E.
    destruct (oracle_result n qs t c Hn Hqs Hc) as [[_ [_ [i [Hi Hl]]]]|[_ [_ [H1 [Hr Hli]]]]].
    + exists i. split; assumption.
    + exfalso. destruct (Nat.eq_dec n 1) as [En|En].
      * rewrite (H1 En) in E. discriminate.
      * destruct Hqs as [->| ->].
        -- rewrite Hr in E by (try reflexivity; lia). discriminate.
        -- rewrite Hli in E by (try reflexivity; lia). discriminate.
Qed.

Lemma wide_target_without_index_error_witness :
  let c := new_circuit 3 3 in
  1 <= 3 /\ first_positions 3 (Py.List (seq 0 3)) /\
  3 <= num_qubits c /\ 3 <= num_qubits c /\
  (~ (0 <= 9 < 2 ^ Z.of_nat 3)%Z /\
   Py.format_0b 9 3 = ["1"; "0"; "0"; "1"]%char /\
   flip_zero_bits (Py.range 3) (Py.format_0b 9 3) c
   = (extend c (map Gate [X 1; X 2]), Ok tt) /\
   oracle (Py.List [0; 1; 2]) 9 c
   = (extend c (map Gate [X 1; X 2; H 2; MCX [0; 1] 2; H 2; X 1; X 2]), Ok tt)) /\
  (snd (oracle (Py.List (seq 0 3)) 8 c) = Raise IndexError ->
   exists i, 3 <= i /\ nth_error (Py.format_0b 8 3) i = Some "0"%char).
Proof.
  intros c. split; [lia|]. split; [right; reflexivity|].
  split; [simpl; lia|]. split; [simpl; lia|].
  apply (wide_target_without_index_error 3 (Py.List (seq 0 3)) 8 c);
    [lia | right; reflexivity | simpl; lia | simpl; lia].
Defined.

(** * Frame *)

(** C9.  Whatever the circuit, the register and the target, the oracle and
    the diffuser leave the number of quantum positions and of classical slots
    as they were, and the operations of the circuit afterwards are those it
    had before followed by gates only: no measurement is appended, and this
    holds also when the builder raises. *)
Theorem builders_only_append_gates
  (c : QuantumCircuit) (qubits : Py.sequence) (t : Z) :
  let c1 := fst (oracle qubits t c) in
  let c2 := fst (diffuser qubits c) in
  (num_qubits c1 = num_qubits c /\ num_clbits c1 = num_clbits c /\
   exists gs : list gate, data c1 = data c ++ map Gate gs) /\
  (num_qubits c2 = num_qubits c /\ num_clbits c2 = num_clbits c /\
   exists gs : list gate, data c2 = data c ++ map Gate gs).
Proof.
  intros c1 c2. split.
  - destruct (gates_only_oracle qubits t c) as [gs E].
    fold c1 in E. rewrite E. split; [reflexivity|]. split; [reflexivity|].
    exists gs. reflexivity.
  - destruct (gates_only_diffuser qubits c) as [gs E].
    fold c2 in E. rewrite E. split; [reflexivity|]. split; [reflexivity|].
    exists gs. reflexivity.
Qed.

(** * Further properties: registers *)

Section Registers.

Lemma bind_ext {A B} (m m' : build A) (k k' : A -> build B) c :
  (forall c0, m c0 = m' c0) -> (forall a c0, k a c0 = k' a c0) ->
  bind m k c = bind m' k' c.
Proof.
  intros Hm Hk. unfold bind. rewrite Hm.
  destruct (m' c) as [c1 [a|e]]; [apply Hk | reflexivity].
Qed.

(** The bit-flip loop only looks at the indices of the '0' characters. *)
Lemma flip_loop_indices (qs : Py.sequence) (s : list ascii) : forall k c,
  for_each (flip_body qs) (combine (seq k (length s)) s) c
  = flip_indices qs (zero_idx k s) c.
Proof.
  induction s as [|ch s IH]; intros k c; [reflexivity|].
  cbn [length seq combine for_each zero_idx]. unfold flip_body at 1.
  destruct (Ascii.eqb ch "0"%char).
  - unfold flip_indices. cbn [for_each].
    apply bind_ext; [reflexivity|]. intros _ c0. apply IH.
  - unfold bind at 1, ret. apply IH.
Qed.

Lemma flip_zero_bits_indices (qs : Py.sequence) (s : list ascii) c :
  flip_zero_bits qs s c = flip_indices qs (zero_idx 0 s) c.
Proof. apply flip_loop_indices. Qed.

(** Two targets whose encodings have their '0' characters at the same
    indices give the same oracle. *)
Lemma oracle_same_zero_idx (qs : Py.sequence) (t1 t2 : Z) c :
  zero_idx 0 (Py.format_0b t1 (Py.len qs)) = zero_idx 0 (Py.format_0b t2 (Py.len qs)) ->
  oracle qs t1 c = oracle qs t2 c.
Proof.
  intros E. unfold oracle. cbv zeta.
  apply bind_ext.
  - intros c0. rewrite !flip_zero_bits_indices, E. reflexivity.
  - intros _ c0. apply bind_ext; [reflexivity|].
    intros _ c1. apply bind_ext; [reflexivity|].
    intros _ c2. apply bind_ext; [reflexivity|].
    intros _ c3. rewrite !flip_zero_bits_indices, E. reflexivity.
Qed.

Lemma zero_idx_In (s : list ascii) : forall k i,
  In i (zero_idx k s) <->
  exists j, i = k + j /\ nth_error s j = Some "0"%char.
Proof.
  induction s as [|ch s IH]; intros k i; cbn [zero_idx].
  - split; [contradiction | intros [[|j] [_ Hj]]; discriminate].
  - destruct (Ascii.eqb ch "0"%char) eqn:Ech.
    + apply Ascii.eqb_eq in Ech. subst ch. split.
      * intros [<-|Hi]; [exists 0; split; [lia | reflexivity]|].
        apply IH in Hi. destruct Hi as [j [-> Hj]].
        exists (S j). split; [lia | exact Hj].
      * intros [[|j] [-> Hj]]; [left; lia|].
        right. apply IH. exists j. split; [lia | exact Hj].
    + split.
      * intros Hi. apply IH in Hi. destruct Hi as [j [-> Hj]].
        exists (S j). split; [lia | exact Hj].
      * intros [[|j] [-> Hj]].
        -- cbn in Hj. injection Hj as ->. discriminate.
        -- apply IH. exists j. split; [lia | exact Hj].
Qed.

Lemma wide_zero_spec (t : Z) (n : nat) :
  wide_zero t n = true <->
  exists i, n <= i /\ nth_error (Py.format_0b t n) i = Some "0"%char.
Proof.
  unfold wide_zero. rewrite existsb_exists. split.
  - intros [i [Hi Hl]]. apply Nat.leb_le in Hl.
    apply zero_idx_In in Hi. destruct Hi as [j [-> Hj]].
    exists j. split; [exact Hl | exact Hj].
  - intros [i [Hl Hi]]. exists i. split; [|apply Nat.leb_le; exact Hl].
    apply zero_idx_In. exists i. split; [reflexivity | exact Hi].
Qed.

Lemma extend_gates_inj c (g1 g2 : list gate) :
  extend c (map Gate g1) = extend c (map Gate g2) -> g1 = g2.
Proof.
  intros E. apply (f_equal data) in E. cbn [extend data] in E.
  apply app_inv_head in E.
  revert g2 E. induction g1 as [|a g1 IH]; intros [|b g2] E;
    try discriminate; [reflexivity|].
  cbn in E. injection E as -> E. f_equal. apply IH, E.
Qed.

(** With a position of the register outside the circuit, the oracle is
    stopped by the circuit, at the latest by the multi-controlled X, which
    checks every position of the register. *)
Lemma oracle_outside_circuit (l : list nat) (t : Z) c :
  1 <= length l -> (0 <= t < 2 ^ Z.of_nat (length l))%Z ->
  (exists q, In q l /\ num_qubits c <= q) ->
  snd (oracle (Py.List l) t c) = Raise CircuitError.
Proof.
  intros Hn Ht [q0 [Hq0 Hout]].
  rewrite oracle_unfold. change (Py.len (Py.List l)) with (length l).
  rewrite format_0b_encoding by assumption.
  set (s := map char_of_bit (encoding (length l) t)).
  pose proof (flip_zero_bits_num_qubits (Py.List l) s c) as Hnq.
  assert (Hst : snd (flip_zero_bits (Py.List l) s c) = Ok tt \/
                snd (flip_zero_bits (Py.List l) s c) = Raise CircuitError).
  { rewrite flip_zero_bits_unfold, flip_loop_status.
    - destruct (forallb _ _); [left | right]; reflexivity.
    - intros i Hi. apply zero_idx_bound in Hi. unfold s in Hi.
      rewrite length_map, length_encoding in Hi. exact Hi. }
  destruct (flip_zero_bits (Py.List l) s c) as [c1 [[]|e]] eqn:E;
    cbn [fst snd] in Hnq, Hst.
  2:{ rewrite (bind_raise _ _ _ _ _ E).
      destruct Hst as [Hst|Hst]; [discriminate | exact Hst]. }
  rewrite (bind_ok _ _ _ _ _ E).
  rewrite getitem_last_nonempty by exact Hn. cbn [Py.items Py.slice_init].
  unfold bind at 1. unfold bind at 1. unfold lift at 1.
  unfold h at 1, checked at 1.
  destruct (in_circuit c1 (last l 0)) eqn:Elast; [|reflexivity].
  unfold bind at 1. unfold bind at 1. unfold lift at 1.
  assert (Hl : l = removelast l ++ [last l 0]).
  { apply app_removelast_last. intros ->. simpl in Hn. lia. }
  destruct (removelast l) as [|q l'] eqn:Er; [reflexivity|].
  unfold mcx, checked.
  assert (Hf : forallb (in_circuit (extend c1 [Gate (H (last l 0))]))
                 ((q :: l') ++ [last l 0]) = false).
  { rewrite <- Hl. apply not_true_is_false. intros Hall.
    rewrite forallb_forall in Hall. specialize (Hall q0 Hq0).
    apply Nat.ltb_lt in Hall. cbn [extend num_qubits] in Hall. lia. }
  rewrite Hf. reflexivity.
Qed.

End Registers.

(** X1.  On a register given as a list of two or more distinct positions of
    the circuit, and for a target in range for its length, the oracle
    returns and appends X on [qubits[i]] for every '0' character [i] of the
    encoding, H on the last position of the register, the multi-controlled X
    from all the others onto the last, H on the last again, and the same X
    gates. *)
Theorem oracle_on_register (qubits : list nat) (t : Z) (c : QuantumCircuit) :
  2 <= length qubits -> NoDup qubits ->
  (forall q, In q qubits -> q < num_qubits c) ->
  (0 <= t < 2 ^ Z.of_nat (length qubits))%Z ->
  oracle (Py.List qubits) t c
  = (extend c (map Gate (oracle_gates_on qubits t)), Ok tt).
Proof. apply oracle_list. Qed.

Lemma oracle_on_register_witness :
  let c := new_circuit 5 5 in
  2 <= length [4; 0; 2] /\ NoDup [4; 0; 2] /\
  (forall q, In q [4; 0; 2] -> q < num_qubits c) /\
  (0 <= 5 < 2 ^ Z.of_nat (length [4; 0; 2]))%Z /\
  oracle (Py.List [4; 0; 2]) 5 c
  = (extend c (map Gate (oracle_gates_on [4; 0; 2] 5)), Ok tt).
Proof.
  intros c.
  assert (Hd : NoDup [4; 0; 2]) by (repeat constructor; simpl; lia).
  assert (Hq : forall q, In q [4; 0; 2] -> q < num_qubits c)
    by (intros q Hq; simpl in Hq; simpl; lia).
  split; [simpl; lia|]. split; [exact Hd|]. split; [exact Hq|].
  split; [cbn; lia|].
  apply (oracle_on_register [4; 0; 2] 5 c); [simpl; lia | exact Hd | exact Hq | cbn; lia].
Defined.

(** X2.  The diffuser on a register of distinct positions of the circuit:
    on no position it raises [CircuitError] at its first call, having
    appended nothing; on one position it appends H, X, H and raises
    [CircuitError] at the multi-controlled X, which has no control; on a list
    of two or more positions it appends H on every position, X on every
    position, H, multi-controlled X and H on the last position, X on every
    position and H on every position, and returns; on a range of two or more
    positions it appends the two layers and the H and raises [TypeError] at
    the multi-controlled X. *)
Theorem diffuser_result (qubits : Py.sequence) (c : QuantumCircuit) :
  NoDup (Py.items qubits) ->
  (forall q, In q (Py.items qubits) -> q < num_qubits c) ->
  diffuser qubits c
  = match Py.items qubits with
    | [] => (c, Raise CircuitError)
    | [q] => (extend c (map Gate [H q; X q; H q]), Raise CircuitError)
    | _ :: _ :: _ =>
        match qubits with
        | Py.List l => (extend c (map Gate (diffuser_gates_on l)), Ok tt)
        | Py.Range n =>
            (extend c (map Gate (map H (seq 0 n) ++ map X (seq 0 n) ++ [H (n - 1)])),
             Raise TypeError)
        end
    end.
Proof.
  intros Hd Hq.
  destruct (Py.items qubits) as [|q1 [|q2 l']] eqn:E.
  - apply diffuser_empty. unfold Py.len. rewrite E. reflexivity.
  - apply diffuser_single; [exact E|]. apply Hq. left. reflexivity.
  - destruct qubits as [n|l].
    + assert (Hn : 2 <= n).
      { apply (f_equal (@length nat)) in E. cbn [Py.items] in E.
        rewrite length_seq in E. simpl in E. lia. }
      apply diffuser_range; [exact Hn|].
      assert (Hlast : n - 1 < num_qubits c).
      { apply Hq. rewrite <- E. cbn [Py.items]. apply in_seq. lia. }
      lia.
    + cbn [Py.items] in E. subst l. apply diffuser_list.
      * simpl. lia.
      * exact Hd.
      * intros q Hin. apply Hq. exact Hin.
Qed.

Lemma diffuser_result_witness :
  let c := new_circuit 3 3 in
  NoDup (Py.items (Py.range 3)) /\
  (forall q, In q (Py.items (Py.range 3)) -> q < num_qubits c) /\
  diffuser (Py.range 3) c
  = match Py.items (Py.range 3) with
    | [] => (c, Raise CircuitError)
    | [q] => (extend c (map Gate [H q; X q; H q]), Raise CircuitError)
    | _ :: _ :: _ =>
        match Py.range 3 with
        | Py.List l => (extend c (map Gate (diffuser_gates_on l)), Ok tt)
        | Py.Range n =>
            (extend c (map Gate (map H (seq 0 n) ++ map X (seq 0 n) ++ [H (n - 1)])),
             Raise TypeError)
        end
    end.
Proof.
  intros c.
  assert (Hd : NoDup (Py.items (Py.range 3))) by apply seq_NoDup.
  assert (Hq : forall q, In q (Py.items (Py.range 3)) -> q < num_qubits c)
    by (intros q Hq; simpl in Hq; simpl; lia).
  split; [exact Hd|]. split; [exact Hq|].
  apply (diffuser_result (Py.range 3) c); [exact Hd | exact Hq].
Defined.

(** X3.  On a register without positions, a range or a list, the oracle
    raises [IndexError] for every target and appends nothing, and the
    diffuser raises [CircuitError] at its first call; the driver called with
    zero positions is stopped by its own first call, [qc.h(range(0))], with
    [CircuitError], and leaves the empty circuit. *)
Theorem empty_register_raises (t : Z) (c : QuantumCircuit) :
  oracle (Py.range 0) t c = (c, Raise IndexError) /\
  oracle (Py.List []) t c = (c, Raise IndexError) /\
  diffuser (Py.range 0) c = (c, Raise CircuitError) /\
  diffuser (Py.List []) c = (c, Raise CircuitError) /\
  grover_search t 0 = (new_circuit 0 0, Raise CircuitError).
Proof.
  split; [apply oracle_empty_register; reflexivity|].
  split; [apply oracle_empty_register; reflexivity|].
  split; [apply diffuser_empty; reflexivity|].
  split; [apply diffuser_empty; reflexivity|].
  apply grover_search_zero.
Qed.

(** * Further properties: targets and their encodings *)

Section Aliases.

Lemma msb_bits_low (k : nat) (a b : Z) :
  (forall i, (0 <= i < Z.of_nat k)%Z -> Z.testbit a i = Z.testbit b i) ->
  msb_bits k a = msb_bits k b.
Proof.
  intros E. unfold msb_bits. apply map_ext_in.
  intros i Hi. apply in_seq in Hi. apply E. lia.
Qed.

Lemma testbit_add_pow2_low (k : nat) (p i : Z) :
  (0 <= i < Z.of_nat k)%Z ->
  Z.testbit (2 ^ Z.of_nat k + p) i = Z.testbit p i.
Proof.
  intros Hi.
  rewrite <- (Z.mod_pow2_bits_low (2 ^ Z.of_nat k + p) (Z.of_nat k) i) by lia.
  rewrite <- (Z.mod_pow2_bits_low p (Z.of_nat k) i) by lia.
  f_equal. rewrite Z.add_comm.
  replace (p + 2 ^ Z.of_nat k)%Z with (p + 1 * 2 ^ Z.of_nat k)%Z by lia.
  apply Z_mod_plus_full.
Qed.

Lemma testbit_add_pow2_top (k : nat) (p : Z) :
  (0 <= p < 2 ^ Z.of_nat k)%Z ->
  Z.testbit (2 ^ Z.of_nat k + p) (Z.of_nat k) = true.
Proof.
  intros Hp. apply Z.testbit_true; [lia|].
  replace (2 ^ Z.of_nat k + p)%Z with (1 * 2 ^ Z.of_nat k + p)%Z by lia.
  rewrite Z.div_add_l by lia. rewrite Z.div_small by lia. reflexivity.
Qed.

(** The encoding of [2^(n-1) + m] is a '1' followed by the [n-1] bits of
    [m]; that of [-m] is a '-' followed by the same bits. *)
Lemma format_0b_top_bit (n : nat) (p : positive) :
  2 <= n -> (Zpos p < 2 ^ Z.of_nat (n - 1))%Z ->
  Py.format_0b (2 ^ Z.of_nat (n - 1) + Zpos p) n
  = "1"%char :: Py.zfill (n - 1) (Py.bin_digits p).
Proof.
  intros Hn Hp.
  assert (Hpow : (2 ^ Z.of_nat n = 2 * 2 ^ Z.of_nat (n - 1))%Z).
  { replace (Z.of_nat n) with (Z.succ (Z.of_nat (n - 1))) by lia.
    apply Z.pow_succ_r. lia. }
  rewrite format_0b_encoding by lia.
  change (encoding n) with (msb_bits n).
  replace n with (S (n - 1)) at 1 by lia.
  rewrite msb_bits_cons, testbit_add_pow2_top by lia.
  rewrite (msb_bits_low (n - 1) _ (Zpos p))
    by (intros i Hi; apply testbit_add_pow2_low; exact Hi).
  change (Py.zfill (n - 1) (Py.bin_digits p)) with (Py.format_0b (Zpos p) (n - 1)).
  rewrite format_0b_encoding by lia. reflexivity.
Qed.

Lemma bin_digits_append_ones (p : positive) (j : nat) :
  Py.bin_digits (append_ones p j) = Py.bin_digits p ++ repeat "1"%char j.
Proof.
  induction j as [|j IH]; cbn [append_ones Py.bin_digits repeat].
  - rewrite app_nil_r. reflexivity.
  - rewrite IH, <- app_assoc. f_equal.
    change ("1"%char :: repeat "1"%char j) with (repeat "1"%char (S j)).
    rewrite <- repeat_cons. reflexivity.
Qed.

Lemma append_ones_value (p : positive) (j : nat) :
  Zpos (append_ones p j) = ((Zpos p + 1) * 2 ^ Z.of_nat j - 1)%Z.
Proof.
  induction j as [|j IH]; cbn [append_ones].
  - change (2 ^ Z.of_nat 0)%Z with 1%Z. lia.
  - rewrite Pos2Z.inj_xI, IH, Nat2Z.inj_succ, Z.pow_succ_r by lia. lia.
Qed.

Lemma zero_idx_app_ones (s : list ascii) (j : nat) : forall k,
  zero_idx k (s ++ repeat "1"%char j) = zero_idx k s.
Proof.
  induction s as [|ch s IH]; intros k.
  - cbn [app zero_idx]. revert k. induction j as [|j IHj]; intros k; [reflexivity|].
    cbn [repeat zero_idx]. apply IHj.
  - cbn [app zero_idx]. rewrite !IH. reflexivity.
Qed.

Lemma size_nat_exact (p : positive) (n : nat) :
  1 <= n -> (2 ^ Z.of_nat (n - 1) <= Zpos p < 2 ^ Z.of_nat n)%Z ->
  Pos.size_nat p = n.
Proof.
  intros Hn [Hlo Hhi].
  pose proof (size_nat_le p n Hhi). pose proof (size_nat_gt p (n - 1) Hlo). lia.
Qed.

Lemma zfill_full (n : nat) (s : list ascii) : n <= length s -> Py.zfill n s = s.
Proof.
  intros H. unfold Py.zfill. replace (n - length s) with 0 by lia. reflexivity.
Qed.

Lemma map_X_prefix (z1 : list nat) : forall (z2 : list nat) q1 q2 r1 r2,
  map X z1 ++ H q1 :: r1 = map X z2 ++ H q2 :: r2 -> z1 = z2.
Proof.
  induction z1 as [|a z1 IH]; intros [|b z2] q1 q2 r1 r2 E; cbn in E;
    try discriminate; [reflexivity|].
  injection E as -> E. f_equal. eapply IH, E.
Qed.

Lemma zero_positions_injective (p1 : basis) : forall p2,
  length p1 = length p2 -> zero_positions p1 = zero_positions p2 -> p1 = p2.
Proof.
  induction p1 as [|b1 p1 IH]; intros [|b2 p2] Hl E; try discriminate; [reflexivity|].
  rewrite !zero_positions_cons in E.
  assert (Hinj : forall l l' : list nat, map S l = map S l' -> l = l').
  { induction l as [|a l IHl]; intros [|a' l'] El; try discriminate; [reflexivity|].
    cbn in El. injection El as Ea El. f_equal; [exact Ea | apply IHl, El]. }
  destruct b1, b2; cbn [app] in E.
  - f_equal. apply IH; [simpl in Hl; lia | apply Hinj, E].
  - destruct (zero_positions p1); discriminate.
  - destruct (zero_positions p2); discriminate.
  - injection E as E. f_equal. apply IH; [simpl in Hl; lia | apply Hinj, E].
Qed.

Lemma encoding_injective (n : nat) (t1 t2 : Z) :
  (0 <= t1 < 2 ^ Z.of_nat n)%Z -> (0 <= t2 < 2 ^ Z.of_nat n)%Z ->
  encoding n t1 = encoding n t2 -> t1 = t2.
Proof.
  intros H1 H2 E. apply Z.bits_inj'. intros i Hi.
  destruct (Z_lt_le_dec i (Z.of_nat n)) as [Hlt|Hge].
  - assert (Hn : nth_error (encoding n t1) (n - 1 - Z.to_nat i)
                 = nth_error (encoding n t2) (n - 1 - Z.to_nat i)) by (rewrite E; reflexivity).
    unfold encoding in Hn. rewrite !nth_error_map in Hn.
    rewrite nth_error_nth' with (d := 0) in Hn by (rewrite length_seq; lia).
    rewrite seq_nth in Hn by lia. cbn [option_map Nat.add] in Hn.
    injection Hn as Hn.
    replace (Z.of_nat (n - 1 - (n - 1 - Z.to_nat i))) with i in Hn by lia.
    exact Hn.
  - assert (Hhigh : forall t, (0 <= t < 2 ^ Z.of_nat n)%Z -> Z.testbit t i = false).
    { intros t Ht. destruct (Z.eq_dec t 0) as [->|Hz]; [apply Z.testbit_0_l|].
      apply Z.bits_above_log2; [lia|].
      apply Z.log2_lt_pow2; [lia|].
      apply Z.lt_le_trans with (2 ^ Z.of_nat n)%Z; [lia|].
      apply Z.pow_le_mono_r; lia. }
    rewrite !Hhigh by assumption. reflexivity.
Qed.

End Aliases.

(** X4.  A negative target [-m] with [1 <= m < 2^(n-1)] is not refused: its
    encoding is a '-' followed by the [n-1] bits of [m], the loop treats the
    '-' like a '1', and on any register of [n] positions the oracle does
    exactly what it does for the in-range target [2^(n-1) + m]; on the list
    of the first [n] positions of a circuit it returns with the gates of
    that target. *)
Theorem negative_target_alias
  (n : nat) (m : Z) (qs : Py.sequence) (c : QuantumCircuit) :
  2 <= n -> (1 <= m < 2 ^ Z.of_nat (n - 1))%Z -> Py.len qs = n ->
  length (Py.format_0b (- m) n) = n /\
  oracle qs (- m) c = oracle qs (2 ^ Z.of_nat (n - 1) + m) c /\
  (n <= num_qubits c ->
   oracle (Py.List (seq 0 n)) (- m) c
   = (extend c (map Gate (oracle_gates n (2 ^ Z.of_nat (n - 1) + m))), Ok tt)).
Proof.
  intros Hn Hm Hlen.
  destruct m as [|p|p]; try lia.
  assert (Hpow : (2 ^ Z.of_nat n = 2 * 2 ^ Z.of_nat (n - 1))%Z).
  { replace (Z.of_nat n) with (Z.succ (Z.of_nat (n - 1))) by lia.
    apply Z.pow_succ_r. lia. }
  assert (Ealias : forall qs' c', Py.len qs' = n ->
                   oracle qs' (- Zpos p) c'
                   = oracle qs' (2 ^ Z.of_nat (n - 1) + Zpos p) c').
  { intros qs' c' Hl. apply oracle_same_zero_idx. rewrite Hl.
    rewrite format_0b_top_bit by lia. reflexivity. }
  split; [|split].
  - cbn [Z.opp Py.format_0b length]. rewrite length_zfill, length_bin_digits.
    pose proof (size_nat_le p (n - 1) (proj2 Hm)). lia.
  - apply Ealias. exact Hlen.
  - intros Hc. rewrite Ealias by apply len_list_seq.
    apply oracle_list_seq; [exact Hn | exact Hc | lia].
Qed.

Lemma negative_target_alias_witness :
  let c := new_circuit 3 3 in
  2 <= 3 /\ (1 <= 1 < 2 ^ Z.of_nat (3 - 1))%Z /\ Py.len (Py.range 3) = 3 /\
  length (Py.format_0b (- 1) 3) = 3 /\
  oracle (Py.range 3) (- 1) c = oracle (Py.range 3) (2 ^ Z.of_nat (3 - 1) + 1) c /\
  (3 <= num_qubits c ->
   oracle (Py.List (seq 0 3)) (- 1) c
   = (extend c (map Gate (oracle_gates 3 (2 ^ Z.of_nat (3 - 1) + 1))), Ok tt)).
Proof.
  intros c. split; [lia|]. split; [cbn; lia|]. split; [reflexivity|].
  apply (negative_target_alias 3 1 (Py.range 3) c); [lia | cbn; lia | reflexivity].
Defined.

(** X5.  A target [(h + 1) * 2^j - 1], where [h] is an [n]-bit number with
    its top bit set, has the encoding of [h] followed by [j] ones; on any
    register of [n] positions the oracle accesses no index beyond the
    register and does exactly what it does for the target [h] (9 on three
    positions is treated as 4); on the list of the first [n >= 2] positions
    of a circuit it returns with the gates of [h]. *)
Theorem wide_target_alias
  (n j : nat) (h : Z) (qs : Py.sequence) (c : QuantumCircuit) :
  1 <= n -> (2 ^ Z.of_nat (n - 1) <= h < 2 ^ Z.of_nat n)%Z -> Py.len qs = n ->
  Py.format_0b ((h + 1) * 2 ^ Z.of_nat j - 1) n
  = Py.format_0b h n ++ repeat "1"%char j /\
  oracle qs ((h + 1) * 2 ^ Z.of_nat j - 1) c = oracle qs h c /\
  (2 <= n -> n <= num_qubits c ->
   oracle (Py.List (seq 0 n)) ((h + 1) * 2 ^ Z.of_nat j - 1) c
   = (extend c (map Gate (oracle_gates n h)), Ok tt)).
Proof.
  intros Hn Hh Hlen.
  assert (Hpos : (0 < 2 ^ Z.of_nat (n - 1))%Z) by (apply Z.pow_pos_nonneg; lia).
  destruct h as [|p|p]; try lia.
  rewrite <- append_ones_value.
  pose proof (size_nat_exact p n Hn Hh) as Hs.
  assert (Ef : Py.format_0b (Zpos (append_ones p j)) n
               = Py.format_0b (Zpos p) n ++ repeat "1"%char j).
  { cbn [Py.format_0b]. rewrite bin_digits_append_ones.
    rewrite !zfill_full
      by (rewrite ?length_app, length_bin_digits; lia).
    reflexivity. }
  assert (Ealias : forall qs' c', Py.len qs' = n ->
                   oracle qs' (Zpos (append_ones p j)) c' = oracle qs' (Zpos p) c').
  { intros qs' c' Hl. apply oracle_same_zero_idx. rewrite Hl, Ef.
    apply zero_idx_app_ones. }
  split; [exact Ef|]. split; [apply Ealias; exact Hlen|].
  intros Hn2 Hc. rewrite Ealias by apply len_list_seq.
  apply oracle_list_seq; [exact Hn2 | exact Hc | lia].
Qed.

Lemma wide_target_alias_witness :
  let c := new_circuit 3 3 in
  1 <= 3 /\ (2 ^ Z.of_nat (3 - 1) <= 4 < 2 ^ Z.of_nat 3)%Z /\
  Py.len (Py.range 3) = 3 /\
  Py.format_0b ((4 + 1) * 2 ^ Z.of_nat 1 - 1) 3
  = Py.format_0b 4 3 ++ repeat "1"%char 1 /\
  oracle (Py.range 3) ((4 + 1) * 2 ^ Z.of_nat 1 - 1) c = oracle (Py.range 3) 4 c /\
  (2 <= 3 -> 3 <= num_qubits c ->
   oracle (Py.List (seq 0 3)) ((4 + 1) * 2 ^ Z.of_nat 1 - 1) c
   = (extend c (map Gate (oracle_gates 3 4)), Ok tt)).
Proof.
  intros c. split; [lia|]. split; [cbn; lia|]. split; [reflexivity|].
  apply (wide_target_alias 3 1 4 (Py.range 3) c); [lia | cbn; lia | reflexivity].
Defined.

(** X6.  On the first [n >= 1] positions of a circuit, as a range or as a
    list, two in-range targets for which the oracle leaves the same circuit
    are equal: the X gates of the first loop, which every call appends,
    determine the encoding and with it the target. *)
Theorem oracle_gates_injective
  (n : nat) (qs : Py.sequence) (t1 t2 : Z) (c : QuantumCircuit) :
  1 <= n -> first_positions n qs -> n <= num_qubits c ->
  (0 <= t1 < 2 ^ Z.of_nat n)%Z -> (0 <= t2 < 2 ^ Z.of_nat n)%Z ->
  fst (oracle qs t1 c) = fst (oracle qs t2 c) -> t1 = t2.
Proof.
  intros Hn Hqs Hc H1 H2 E.
  apply (encoding_injective n); try assumption.
  apply zero_positions_injective; [rewrite !length_encoding; reflexivity|].
  destruct (Nat.eq_dec n 1) as [->|Hn1].
  - rewrite !(oracle_single qs) in E by (try assumption; lia).
    cbn [fst] in E. apply extend_gates_inj in E.
    eapply map_X_prefix, E.
  - destruct Hqs as [->| ->].
    + rewrite !oracle_range in E by (try assumption; lia).
      cbn [fst] in E. apply extend_gates_inj in E.
      eapply map_X_prefix, E.
    + rewrite !oracle_list_seq in E by (try assumption; lia).
      cbn [fst] in E. apply extend_gates_inj in E.
      unfold oracle_gates, phase_flip_gates in E. cbn [app] in E.
      eapply map_X_prefix, E.
Qed.

Lemma oracle_gates_injective_witness :
  let c := new_circuit 3 3 in
  1 <= 3 /\ first_positions 3 (Py.range 3) /\ 3 <= num_qubits c /\
  (0 <= 5 < 2 ^ Z.of_nat 3)%Z /\ (0 <= 5 < 2 ^ Z.of_nat 3)%Z /\
  fst (oracle (Py.range 3) 5 c) = fst (oracle (Py.range 3) 5 c) /\ 5%Z = 5%Z.
Proof.
  intros c. split; [lia|]. split; [left; reflexivity|]. split; [simpl; lia|].
  split; [cbn; lia|]. split; [cbn; lia|]. split; [reflexivity|].
  apply (oracle_gates_injective 3 (Py.range 3) 5 5 c);
    [lia | left; reflexivity | simpl; lia | cbn; lia | cbn; lia | reflexivity].
Defined.

(** * Further properties: the Grover iteration on amplitudes *)

Section GroverIteration.

Variable K : amplitude_ring.

Notation "0" := (azero K) : amp_scope.
Notation "1" := (aone K) : amp_scope.
Notation "a + b" := (aadd K a b) : amp_scope.
Notation "a * b" := (amul K a b) : amp_scope.
Notation "a - b" := (asub K a b) : amp_scope.
Notation "- a" := (aopp K a) : amp_scope.
Abbreviation r := (inv_sqrt2 K).
Local Open Scope amp_scope.

Add Ring K_ring_iteration : (amp_ring K).

Lemma run_oracle_gates (n : nat) (t : Z) (a : vector K) (s : basis) :
  (1 <= n)%nat -> length s = n ->
  run (oracle_gates n t) a s
  = if list_eq_dec bool_dec s (encoding n t) then - a s else a s.
Proof.
  intros Hn Hs.
  pose proof (run_mark_pattern K (encoding n t) a s) as P.
  rewrite length_encoding in P. apply P; assumption.
Qed.

Lemma total_constant (n : nat) (x : K) :
  total n (fun _ => x) = pow K (1 + 1) n * x.
Proof.
  induction n as [|n IH].
  - unfold total. cbn [all_states map sum fold_right pow]. ring.
  - rewrite total_S. unfold slice. rewrite IH. cbn [pow]. ring.
Qed.

Lemma pow_one (n : nat) : pow K 1 n = 1.
Proof. induction n as [|n IH]; cbn [pow]; [reflexivity | rewrite IH; ring]. Qed.

Lemma pow_half_two (n : nat) (x : K) :
  pow K (r * r) n * (pow K (1 + 1) n * x) = x.
Proof.
  transitivity (pow K (r * r) n * pow K (1 + 1) n * x); [ring|].
  rewrite pow_mul.
  replace (r * r * (1 + 1)) with 1; [rewrite pow_one; ring|].
  transitivity ((1 + 1) * (r * r)); [symmetry; apply inv_sqrt2_spec | ring].
Qed.

Lemma total_two_valued (n : nat) : forall (p : basis) (x y : K),
  length p = n ->
  total n (two_valued K p x y) = x + (pow K (1 + 1) n - 1) * y.
Proof.
  induction n as [|n IH]; intros p x y Hp.
  - destruct p; [|discriminate].
    unfold total, two_valued. cbn [all_states map sum fold_right pow].
    destruct (list_eq_dec bool_dec [] []); [ring | congruence].
  - destruct p as [|b p]; [discriminate|]. injection Hp as Hp.
    rewrite total_S.
    assert (Hsame : eq_on n (slice b (two_valued K (b :: p) x y)) (two_valued K p x y)).
    { intros u _. unfold slice, two_valued.
      destruct (list_eq_dec bool_dec (b :: u) (b :: p)) as [E|E];
        destruct (list_eq_dec bool_dec u p) as [E'|E']; try reflexivity.
      - injection E as E. contradiction.
      - subst u. contradiction. }
    assert (Hother : eq_on n (slice (negb b) (two_valued K (b :: p) x y)) (fun _ => y)).
    { intros u _. unfold slice, two_valued.
      destruct (list_eq_dec bool_dec (negb b :: u) (b :: p)) as [E|E]; [|reflexivity].
      injection E as E _. destruct b; discriminate. }
    destruct b; cbn [negb] in Hother;
      rewrite (total_ext K n _ _ Hsame), (total_ext K n _ _ Hother),
        IH, total_constant by exact Hp;
      cbn [pow]; ring.
Qed.

(** One oracle-diffuser pair keeps the shape "one amplitude on the target,
    another on every other state" and acts on the two amplitudes by
    [grover_step]. *)
Lemma run_grover_pair (n : nat) (t : Z) (x y : K) (s : basis) :
  (1 <= n)%nat -> length s = n ->
  run (oracle_gates n t ++ diffuser_gates n) (two_valued K (encoding n t) x y) s
  = two_valued K (encoding n t)
      (fst (grover_step K n (x, y))) (snd (grover_step K n (x, y))) s.
Proof.
  intros Hn Hs. rewrite run_app, run_diffuser by assumption.
  assert (Ho : eq_on n (run (oracle_gates n t) (two_valued K (encoding n t) x y))
                       (two_valued K (encoding n t) (- x) y)).
  { intros u Hu. rewrite run_oracle_gates by assumption.
    unfold two_valued. destruct (list_eq_dec bool_dec u (encoding n t)); reflexivity. }
  unfold mean. rewrite (total_ext K n _ _ Ho), total_two_valued by apply length_encoding.
  rewrite (Ho s Hs). unfold two_valued, grover_step. cbn [fst snd].
  destruct (list_eq_dec bool_dec s (encoding n t)); reflexivity.
Qed.

Lemma run_grover_pairs (n : nat) (t : Z) (k : nat) : forall (x y : K) (s : basis),
  (1 <= n)%nat -> length s = n ->
  run (concat (repeat (oracle_gates n t ++ diffuser_gates n) k))
      (two_valued K (encoding n t) x y) s
  = two_valued K (encoding n t)
      (fst (grover_steps K n k (x, y))) (snd (grover_steps K n k (x, y))) s.
Proof.
  induction k as [|k IH]; intros x y s Hn Hs; [reflexivity|].
  cbn [repeat concat grover_steps]. rewrite run_app.
  rewrite (run_ext K n _ _
             (two_valued K (encoding n t)
                (fst (grover_step K n (x, y))) (snd (grover_step K n (x, y)))))
    by (try exact Hs; intros u Hu; apply run_grover_pair; assumption).
  rewrite IH by assumption.
  destruct (grover_step K n (x, y)) as [x' y']. reflexivity.
Qed.

(** The Hadamard layer on the all-zero state gives the uniform vector. *)
Lemma hadamard_delta_uniform (n : nat) (t : Z) :
  eq_on n (run (map H (seq 0 n)) (delta K n))
          (two_valued K (encoding n t) (pow K r n) (pow K r n)).
Proof.
  intros s Hs. change (run (map H (seq 0 n))) with (@hadamard K n).
  rewrite hadamard_delta by exact Hs.
  unfold two_valued. destruct (list_eq_dec bool_dec s (encoding n t)); reflexivity.
Qed.

Lemma run_grover_gates (n : nat) (t : Z) (k : nat) (s : basis) :
  (1 <= n)%nat -> length s = n ->
  run (grover_gates n t k) (delta K n) s
  = two_valued K (encoding n t)
      (fst (grover_steps K n k (pow K r n, pow K r n)))
      (snd (grover_steps K n k (pow K r n, pow K r n))) s.
Proof.
  intros Hn Hs. unfold grover_gates. rewrite run_app.
  rewrite (run_ext K n _ _ _ (hadamard_delta_uniform n t)) by exact Hs.
  apply run_grover_pairs; assumption.
Qed.

(** When [2^n * z] is twice the sum of the oracle-flipped amplitudes,
    [grover_step] subtracts [z]. *)
Lemma grover_step_by (n : nat) (x y z : K) :
  pow K (1 + 1) n * z = (1 + 1) * (- x + (pow K (1 + 1) n - 1) * y) ->
  grover_step K n (x, y) = (- x - z, y - z).
Proof.
  intros Hz. unfold grover_step. cbn [fst snd].
  assert (E : (1 + 1) * (pow K (r * r) n * (- x + (pow K (1 + 1) n - 1) * y)) = z).
  { transitivity (pow K (r * r) n
                  * ((1 + 1) * (- x + (pow K (1 + 1) n - 1) * y))); [ring|].
    rewrite <- Hz. apply pow_half_two. }
  rewrite E. reflexivity.
Qed.

Lemma r3_r7 : pow K r 3 = (1 + 1) * (1 + 1) * pow K r 7.
Proof.
  cbn [pow].
  transitivity ((1 + 1) * (r * r) * ((1 + 1) * (r * r)) * (r * (r * (r * 1)))); [|ring].
  rewrite (inv_sqrt2_spec K). ring.
Qed.

(** Three positions, two iterations: 11/(8 sqrt 2) on the target and
    -1/(8 sqrt 2) elsewhere. *)
Lemma grover_steps_3_2 :
  grover_steps K 3 2 (pow K r 3, pow K r 3)
  = ((1 + 1 + 1 + 1 + 1 + 1 + 1 + 1 + 1 + 1 + 1) * pow K r 7, - pow K r 7).
Proof.
  rewrite r3_r7. set (w := pow K r 7).
  cbn [grover_steps].
  rewrite (grover_step_by 3 _ _ ((1 + 1 + 1 + 1 + 1 + 1) * w)) by (cbn [pow]; ring).
  rewrite (grover_step_by 3 _ _ (- w)) by (cbn [pow]; ring).
  f_equal; ring.
Qed.

(** *** The sum of squares *)

Lemma sq_total_ext (n : nat) (a b : vector K) :
  eq_on n a b -> sq_total n a = sq_total n b.
Proof.
  intros E. unfold sq_total. apply total_ext.
  intros s Hs. rewrite (E s Hs). reflexivity.
Qed.

Lemma sq_total_oracle (n : nat) (t : Z) (a : vector K) :
  (1 <= n)%nat -> sq_total n (run (oracle_gates n t) a) = sq_total n a.
Proof.
  intros Hn. unfold sq_total. apply total_ext.
  intros s Hs. rewrite run_oracle_gates by assumption.
  destruct (list_eq_dec bool_dec s (encoding n t)); ring.
Qed.

Lemma sq_total_diffuser (n : nat) (a : vector K) :
  (1 <= n)%nat -> sq_total n (run (diffuser_gates n) a) = sq_total n a.
Proof.
  intros Hn. unfold sq_total.
  set (c := (1 + 1) * mean n a).
  rewrite (total_ext K n _
             (fun s => 1 * (a s * a s)
                       + 1 * ((- ((1 + 1) * c)) * a s + (c * c) * (fun _ => 1) s)))
    by (intros s Hs; rewrite run_diffuser by assumption; fold c; ring).
  rewrite total_linear.
  rewrite (total_linear K n (- ((1 + 1) * c)) (c * c) a (fun _ => 1)).
  rewrite total_constant, <- (mean_average K n a).
  unfold c. ring.
Qed.

Lemma sq_total_hadamard (n : nat) : forall a : vector K,
  sq_total n (hadamard n a) = sq_total n a.
Proof.
  induction n as [|n IH]; intros a; [reflexivity|].
  unfold sq_total. rewrite !total_S.
  set (a0 := slice false a). set (a1 := slice true a).
  assert (E0 : eq_on n (slice false (fun s => hadamard (S n) a s * hadamard (S n) a s))
                       (fun u => (r * hadamard n a0 u + r * hadamard n a1 u)
                                 * (r * hadamard n a0 u + r * hadamard n a1 u))).
  { intros u Hu. unfold slice at 1. rewrite hadamard_S. cbn [signed].
    fold a0 a1. rewrite hadamard_linear. reflexivity. }
  assert (E1 : eq_on n (slice true (fun s => hadamard (S n) a s * hadamard (S n) a s))
                       (fun u => (r * hadamard n a0 u + (- r) * hadamard n a1 u)
                                 * (r * hadamard n a0 u + (- r) * hadamard n a1 u))).
  { intros u Hu. unfold slice at 1. rewrite hadamard_S. cbn [signed].
    fold a0 a1. rewrite hadamard_linear. reflexivity. }
  rewrite (total_ext K n _ _ E0), (total_ext K n _ _ E1).
  transitivity (total n (fun u =>
                  1 * ((r * hadamard n a0 u + r * hadamard n a1 u)
                       * (r * hadamard n a0 u + r * hadamard n a1 u))
                  + 1 * ((r * hadamard n a0 u + (- r) * hadamard n a1 u)
                         * (r * hadamard n a0 u + (- r) * hadamard n a1 u)))).
  { rewrite total_linear. ring. }
  rewrite (total_ext K n _
             (fun u => 1 * (hadamard n a0 u * hadamard n a0 u)
                       + 1 * (hadamard n a1 u * hadamard n a1 u))).
  - rewrite total_linear.
    fold (sq_total n (hadamard n a0)) (sq_total n (hadamard n a1)).
    rewrite !IH. unfold sq_total, a0, a1, slice. ring.
  - intros u _.
    transitivity ((1 + 1) * (r * r)
                  * (hadamard n a0 u * hadamard n a0 u
                     + hadamard n a1 u * hadamard n a1 u)); [ring|].
    rewrite (inv_sqrt2_spec K). ring.
Qed.

Lemma sq_total_pairs (n : nat) (t : Z) (k : nat) : forall a : vector K,
  (1 <= n)%nat ->
  sq_total n (run (concat (repeat (oracle_gates n t ++ diffuser_gates n) k)) a)
  = sq_total n a.
Proof.
  induction k as [|k IH]; intros a Hn; [reflexivity|].
  cbn [repeat concat]. rewrite run_app, IH by exact Hn.
  rewrite run_app, sq_total_diffuser, sq_total_oracle by exact Hn. reflexivity.
Qed.

Lemma run_oracle_twice (n : nat) (t : Z) (a : vector K) (s : basis) :
  (1 <= n)%nat -> length s = n ->
  run (oracle_gates n t ++ oracle_gates n t) a s = a s.
Proof.
  intros Hn Hs. rewrite run_app, !run_oracle_gates by assumption.
  destruct (list_eq_dec bool_dec s (encoding n t)); [ring | reflexivity].
Qed.

Lemma sq_total_grover_gates (n : nat) (t : Z) (k : nat) (a : vector K) :
  (1 <= n)%nat -> sq_total n (run (grover_gates n t k) a) = sq_total n a.
Proof.
  intros Hn. unfold grover_gates. rewrite run_app, sq_total_pairs by exact Hn.
  apply sq_total_hadamard.
Qed.

Lemma run_grover_gates_3 (t : Z) (s : basis) :
  length s = 3%nat ->
  run (grover_gates 3 t 2) (delta K 3) s
  = two_valued K (encoding 3 t)
      ((1 + 1 + 1 + 1 + 1 + 1 + 1 + 1 + 1 + 1 + 1) * pow K r 7) (- pow K r 7) s.
Proof.
  intros Hs. rewrite run_grover_gates by (try exact Hs; lia).
  rewrite grover_steps_3_2. reflexivity.
Qed.

(** Two positions, two iterations: the second iteration undoes the gain of
    the first. *)
Lemma grover_steps_2_2 :
  grover_steps K 2 2 (pow K r 2, pow K r 2) = (pow K r 2, - pow K r 2).
Proof.
  set (w := pow K r 2). cbn [grover_steps].
  rewrite (grover_step_by 2 _ _ w) by (cbn [pow]; ring).
  rewrite (grover_step_by 2 _ _ w) by (cbn [pow]; ring).
  f_equal; ring.
Qed.

Lemma run_grover_gates_2 (t : Z) (s : basis) :
  length s = 2%nat ->
  run (grover_gates 2 t 2) (delta K 2) s
  = two_valued K (encoding 2 t) (pow K r 2) (- pow K r 2) s.
Proof.
  intros Hs. rewrite run_grover_gates by (try exact Hs; lia).
  rewrite grover_steps_2_2. reflexivity.
Qed.

End GroverIteration.

(** * Further properties: the builders in the driver's order *)

Section Rounds.

(** One pass of the driver's loop body on the list of the first [n]
    positions. *)
Lemma grover_pair_list (n : nat) (t : Z) c :
  2 <= n -> n <= num_qubits c -> (0 <= t < 2 ^ Z.of_nat n)%Z ->
  (oracle (Py.List (seq 0 n)) t ;;; diffuser (Py.List (seq 0 n))) c
  = (extend c (map Gate (oracle_gates n t ++ diffuser_gates n)), Ok tt).
Proof.
  intros Hn Hc Ht.
  erewrite bind_ok by (apply oracle_list_seq; assumption).
  rewrite diffuser_list_seq, extend_extend, map_app by assumption.
  reflexivity.
Qed.

(** The Hadamard layer and [k] passes of the loop body. *)
Lemma grover_rounds_list (n : nat) (t : Z) (k : nat) c :
  2 <= n -> n <= num_qubits c -> (0 <= t < 2 ^ Z.of_nat n)%Z ->
  (h_all (Py.List (seq 0 n)) ;;;
   for_range k (oracle (Py.List (seq 0 n)) t ;;; diffuser (Py.List (seq 0 n)))) c
  = (extend c (map Gate (grover_gates n t k)), Ok tt).
Proof.
  intros Hn Hc Ht. unfold h_all.
  erewrite bind_ok.
  2:{ apply broadcast_ok; [rewrite len_list_seq; lia|].
      intros q Hq. cbn [Py.items] in Hq. apply in_seq in Hq. lia. }
  rewrite (for_range_ok (map Gate (oracle_gates n t ++ diffuser_gates n))).
  - rewrite extend_extend. unfold grover_gates. cbn [Py.items].
    rewrite (map_app Gate (map H (seq 0 n))), map_Gate_concat. reflexivity.
  - intros c' E. apply grover_pair_list; [exact Hn | | exact Ht].
    rewrite E. cbn [extend num_qubits]. exact Hc.
Qed.

End Rounds.

(** X7.  For the list of the first [n >= 2] positions of a circuit and an
    in-range target, two oracle calls in a row append the oracle's gates
    twice, and the doubled sequence maps every amplitude vector to itself:
    marking twice unmarks. *)
Theorem oracle_twice_identity
  (K : amplitude_ring) (n : nat) (t : Z) (c : QuantumCircuit)
  (a : vector K) (s : basis) :
  2 <= n -> n <= num_qubits c -> (0 <= t < 2 ^ Z.of_nat n)%Z -> length s = n ->
  (oracle (Py.List (seq 0 n)) t ;;; oracle (Py.List (seq 0 n)) t) c
  = (extend c (map Gate (oracle_gates n t ++ oracle_gates n t)), Ok tt) /\
  run (oracle_gates n t ++ oracle_gates n t) a s = a s.
Proof.
  intros Hn Hc Ht Hs. split.
  - erewrite bind_ok by (apply oracle_list_seq; assumption).
    rewrite oracle_list_seq, extend_extend, map_app by assumption. reflexivity.
  - apply run_oracle_twice; [lia | assumption].
Qed.

Lemma oracle_twice_identity_witness :
  let a := unit_vector_00 in
  let s := [true; false] in
  let c := new_circuit 2 2 in
  2 <= 2 /\ 2 <= num_qubits c /\ (0 <= 2 < 2 ^ Z.of_nat 2)%Z /\ length s = 2 /\
  (oracle (Py.List (seq 0 2)) 2 ;;; oracle (Py.List (seq 0 2)) 2) c
  = (extend c (map Gate (oracle_gates 2 2 ++ oracle_gates 2 2)), Ok tt) /\
  run (oracle_gates 2 2 ++ oracle_gates 2 2) a s = a s.
Proof.
  intros a s c. split; [lia|]. split; [simpl; lia|]. split; [cbn; lia|].
  split; [reflexivity|].
  apply (oracle_twice_identity R_amp 2 2 c a s);
    [lia | simpl; lia | cbn; lia | reflexivity].
Defined.

(** X8.  The builders called in the driver's order, on the list of the first
    [n >= 2] positions of a circuit and with an in-range target: H on every
    position, then [k] times the oracle followed by the diffuser.  The calls
    return, and the gates they append take the all-zero state to a vector
    with one amplitude on the target and one on every other state: start
    from [(1/sqrt 2)^n] on both and apply [grover_step] once per iteration
    (negate the target amplitude, then subtract twice the mean from both). *)
Theorem grover_search_amplitudes
  (K : amplitude_ring) (n : nat) (t : Z) (k : nat) (c : QuantumCircuit)
  (s : basis) :
  2 <= n -> n <= num_qubits c -> (0 <= t < 2 ^ Z.of_nat n)%Z -> length s = n ->
  (h_all (Py.List (seq 0 n)) ;;;
   for_range k (oracle (Py.List (seq 0 n)) t ;;; diffuser (Py.List (seq 0 n)))) c
  = (extend c (map Gate (grover_gates n t k)), Ok tt) /\
  run (grover_gates n t k) (delta K n) s
  = two_valued K (encoding n t)
      (fst (grover_steps K n k (pow K (inv_sqrt2 K) n, pow K (inv_sqrt2 K) n)))
      (snd (grover_steps K n k (pow K (inv_sqrt2 K) n, pow K (inv_sqrt2 K) n))) s.
Proof.
  intros Hn Hc Ht Hs. split.
  - apply grover_rounds_list; assumption.
  - apply run_grover_gates; [lia | assumption].
Qed.

Lemma grover_search_amplitudes_witness :
  let s := [true; false; true] in
  let c := new_circuit 3 3 in
  2 <= 3 /\ 3 <= num_qubits c /\ (0 <= 5 < 2 ^ Z.of_nat 3)%Z /\ length s = 3 /\
  (h_all (Py.List (seq 0 3)) ;;;
   for_range 2 (oracle (Py.List (seq 0 3)) 5 ;;; diffuser (Py.List (seq 0 3)))) c
  = (extend c (map Gate (grover_gates 3 5 2)), Ok tt) /\
  run (grover_gates 3 5 2) (delta R_amp 3) s
  = two_valued R_amp (encoding 3 5)
      (fst (grover_steps R_amp 3 2
              (pow R_amp (inv_sqrt2 R_amp) 3, pow R_amp (inv_sqrt2 R_amp) 3)))
      (snd (grover_steps R_amp 3 2
              (pow R_amp (inv_sqrt2 R_amp) 3, pow R_amp (inv_sqrt2 R_amp) 3))) s.
Proof.
  intros s c. split; [lia|]. split; [simpl; lia|]. split; [cbn; lia|].
  split; [reflexivity|].
  apply (grover_search_amplitudes R_amp 3 5 2 c s);
    [lia | simpl; lia | cbn; lia | reflexivity].
Defined.

(** X9.  With the three positions the program uses and the two iterations
    it computes for them, for every target from 0 to 7: the builders called
    in the driver's order on the list of positions 0, 1, 2 return, and over
    the reals the gates they append take the all-zero state to amplitude
    [11 / (8 sqrt 2)] on the target and [-1 / (8 sqrt 2)] on each of the
    seven other states: squared, 121/128 for the target and 1/128 for every
    other outcome. *)
Theorem grover_search_3_probabilities (t : Z) (s : basis) :
  (0 <= t < 8)%Z -> length s = 3 ->
  num_iterations 3 = Ok 2%Z /\
  (h_all (Py.List [0; 1; 2]) ;;;
   for_range 2 (oracle (Py.List [0; 1; 2]) t ;;; diffuser (Py.List [0; 1; 2])))
    (new_circuit 3 3)
  = (mkQC 3 3 (map Gate (grover_gates 3 t 2)), Ok tt) /\
  run (grover_gates 3 t 2) (delta R_amp 3) s
  = (if list_eq_dec bool_dec s (encoding 3 t)
     then 11 * (/ sqrt 2) ^ 7 else - (/ sqrt 2) ^ 7)%R /\
  (run (grover_gates 3 t 2) (delta R_amp 3) s
   * run (grover_gates 3 t 2) (delta R_amp 3) s
   = if list_eq_dec bool_dec s (encoding 3 t) then 121 / 128 else 1 / 128)%R.
Proof.
  intros Ht Hs.
  assert (Hamp : run (grover_gates 3 t 2) (delta R_amp 3) s
                 = (if list_eq_dec bool_dec s (encoding 3 t)
                    then 11 * (/ sqrt 2) ^ 7 else - (/ sqrt 2) ^ 7)%R).
  { rewrite (run_grover_gates_3 R_amp t s Hs). unfold two_valued.
    destruct (list_eq_dec bool_dec s (encoding 3 t));
      cbn [pow R_amp amul aadd aopp aone inv_sqrt2]; simpl Rpow_def.pow; lra. }
  split; [reflexivity|]. split; [|split].
  - apply (grover_rounds_list 3 t 2 (new_circuit 3 3)); [lia | simpl; lia | cbn; lia].
  - exact Hamp.
  - rewrite Hamp.
    assert (Hw : ((/ sqrt 2) ^ 7 * (/ sqrt 2) ^ 7 = 1 / 128)%R).
    { transitivity ((/ sqrt 2 * / sqrt 2) * (/ sqrt 2 * / sqrt 2)
                    * (/ sqrt 2 * / sqrt 2) * (/ sqrt 2 * / sqrt 2)
                    * (/ sqrt 2 * / sqrt 2) * (/ sqrt 2 * / sqrt 2)
                    * (/ sqrt 2 * / sqrt 2))%R; [simpl Rpow_def.pow; ring|].
      rewrite half_R. lra. }
    destruct (list_eq_dec bool_dec s (encoding 3 t)).
    + transitivity (121 * ((/ sqrt 2) ^ 7 * (/ sqrt 2) ^ 7))%R; [ring | rewrite Hw; lra].
    + transitivity ((/ sqrt 2) ^ 7 * (/ sqrt 2) ^ 7)%R; [ring | rewrite Hw; lra].
Qed.

Lemma grover_search_3_probabilities_witness :
  let s := [true; false; true] in
  (0 <= 5 < 8)%Z /\ length s = 3 /\
  num_iterations 3 = Ok 2%Z /\
  (h_all (Py.List [0; 1; 2]) ;;;
   for_range 2 (oracle (Py.List [0; 1; 2]) 5 ;;; diffuser (Py.List [0; 1; 2])))
    (new_circuit 3 3)
  = (mkQC 3 3 (map Gate (grover_gates 3 5 2)), Ok tt) /\
  run (grover_gates 3 5 2) (delta R_amp 3) s
  = (if list_eq_dec bool_dec s (encoding 3 5)
     then 11 * (/ sqrt 2) ^ 7 else - (/ sqrt 2) ^ 7)%R /\
  (run (grover_gates 3 5 2) (delta R_amp 3) s
   * run (grover_gates 3 5 2) (delta R_amp 3) s
   = if list_eq_dec bool_dec s (encoding 3 5) then 121 / 128 else 1 / 128)%R.
Proof.
  intros s. split; [lia|]. split; [reflexivity|].
  apply (grover_search_3_probabilities 5 s); [lia | reflexivity].
Defined.

(** X10.  On the list of the first [n >= 2] positions of a circuit and for
    an in-range target, the gates that the oracle appends, those that the
    diffuser appends, and those of the builders called in the driver's order
    for any number of iterations, leave the sum of the squares of the [2^n]
    amplitudes unchanged. *)
Theorem gates_preserve_sum_of_squares
  (K : amplitude_ring) (n : nat) (t : Z) (k : nat) (c : QuantumCircuit)
  (a : vector K) :
  2 <= n -> n <= num_qubits c -> (0 <= t < 2 ^ Z.of_nat n)%Z ->
  exists go gd gg : list gate,
    oracle (Py.List (seq 0 n)) t c = (extend c (map Gate go), Ok tt) /\
    diffuser (Py.List (seq 0 n)) c = (extend c (map Gate gd), Ok tt) /\
    (h_all (Py.List (seq 0 n)) ;;;
     for_range k (oracle (Py.List (seq 0 n)) t ;;; diffuser (Py.List (seq 0 n)))) c
    = (extend c (map Gate gg), Ok tt) /\
    sq_total n (run go a) = sq_total n a /\
    sq_total n (run gd a) = sq_total n a /\
    sq_total n (run gg a) = sq_total n a.
Proof.
  intros Hn Hc Ht.
  exists (oracle_gates n t), (diffuser_gates n), (grover_gates n t k).
  split; [apply oracle_list_seq; assumption|].
  split; [apply diffuser_list_seq; assumption|].
  split; [apply grover_rounds_list; assumption|].
  split; [apply sq_total_oracle; lia|].
  split; [apply sq_total_diffuser; lia|].
  apply sq_total_grover_gates. lia.
Qed.

Lemma gates_preserve_sum_of_squares_witness :
  let a := unit_vector_00 in
  let c := new_circuit 2 2 in
  2 <= 2 /\ 2 <= num_qubits c /\ (0 <= 1 < 2 ^ Z.of_nat 2)%Z /\
  exists go gd gg : list gate,
    oracle (Py.List (seq 0 2)) 1 c = (extend c (map Gate go), Ok tt) /\
    diffuser (Py.List (seq 0 2)) c = (extend c (map Gate gd), Ok tt) /\
    (h_all (Py.List (seq 0 2)) ;;;
     for_range 2 (oracle (Py.List (seq 0 2)) 1 ;;; diffuser (Py.List (seq 0 2)))) c
    = (extend c (map Gate gg), Ok tt) /\
    sq_total 2 (run go a) = sq_total 2 a /\
    sq_total 2 (run gd a) = sq_total 2 a /\
    sq_total 2 (run gg a) = sq_total 2 a.
Proof.
  intros a c. split; [lia|]. split; [simpl; lia|]. split; [cbn; lia|].
  apply (gates_preserve_sum_of_squares R_amp 2 1 2 c a);
    [lia | simpl; lia | cbn; lia].
Defined.

(** X11.  Whatever the target and the number of positions [n], the circuit
    the driver leaves has [n] quantum positions and [n] classical slots and
    starts with H on every position followed by gates only; the [n]
    measurements are there, at the end, exactly when the driver returns, and
    a circuit left by an exception holds no measurement. *)
Theorem grover_search_frame (t : Z) (n : nat) :
  num_qubits (fst (grover_search t n)) = n /\
  num_clbits (fst (grover_search t n)) = n /\
  exists gs : list gate,
    data (fst (grover_search t n))
    = map Gate (map H (seq 0 n)) ++ map Gate gs ++
      match snd (grover_search t n) with
      | Ok _ => map (fun i => Measure i i) (seq 0 n)
      | Raise _ => []
      end.
Proof.
  destruct (Nat.eq_dec n 0) as [->|Hn0].
  { rewrite grover_search_zero. split; [reflexivity|]. split; [reflexivity|].
    exists []. reflexivity. }
  unfold grover_search, grover_build.
  erewrite bind_ok by (apply h_all_range; simpl; lia).
  set (c1 := extend (new_circuit n n) (map Gate (map H (seq 0 n)))).
  destruct (num_iterations n) as [k|e].
  - erewrite (bind_ok (lift (Ok k))) by reflexivity.
    destruct (gates_only_for_range (Z.to_nat k) _
                (gates_only_pair (Py.range n) t) c1) as [gs E].
    destruct (for_range (Z.to_nat k)
                (oracle (Py.range n) t;;; diffuser (Py.range n)) c1)
      as [c2 [[]|e]] eqn:Ef; cbn [fst] in E; subst c2.
    + erewrite bind_ok by exact Ef.
      rewrite measure_range by (simpl; lia).
      cbn [fst snd num_qubits num_clbits data extend new_circuit app c1].
      split; [reflexivity|]. split; [reflexivity|].
      exists gs. unfold c1. cbn [data extend new_circuit app].
      rewrite <- !app_assoc. reflexivity.
    + erewrite bind_raise by exact Ef.
      split; [reflexivity|]. split; [reflexivity|].
      exists gs. unfold c1. cbn [fst snd data extend new_circuit app].
      rewrite app_nil_r. reflexivity.
  - erewrite (bind_raise (lift (Raise e))) by reflexivity.
    split; [reflexivity|]. split; [reflexivity|].
    exists []. unfold c1. cbn [fst snd data extend new_circuit app map].
    rewrite app_nil_r. reflexivity.
Qed.

(** X12.  From 1024 positions on, converting [2**n] to a float overflows:
    the driver raises [OverflowError] for every target, after the Hadamard
    layer and before any oracle, diffuser or measurement. *)
Theorem grover_search_overflows (n : nat) (t : Z) :
  1024 <= n ->
  num_iterations n = Raise OverflowError /\
  grover_search t n = (mkQC n n (map Gate (map H (seq 0 n))), Raise OverflowError).
Proof.
  intros Hn. split; [apply num_iterations_overflow | apply grover_search_overflow];
    exact Hn.
Qed.

Lemma grover_search_overflows_witness :
  1024 <= 1024 /\
  num_iterations 1024 = Raise OverflowError /\
  grover_search 5 1024
  = (mkQC 1024 1024 (map Gate (map H (seq 0 1024))), Raise OverflowError).
Proof.
  split; [apply le_n|].
  apply (grover_search_overflows 1024 5). apply le_n.
Defined.

(** X13.  For an odd number of positions [n = 105 + 2 j] up to 1023 the
    driver's iteration count is [6369051672525773 * 2^j], strictly more than
    the floor of the square root of [2^n]: the double-precision square root
    is rounded up and the truncation does not undo it. *)
Theorem iteration_count_rounds_up (j : nat) :
  105 + 2 * j <= 1023 ->
  num_iterations (105 + 2 * j) = Ok (6369051672525773 * 2 ^ Z.of_nat j)%Z /\
  (Z.sqrt (2 ^ Z.of_nat (105 + 2 * j)) < 6369051672525773 * 2 ^ Z.of_nat j)%Z.
Proof. apply num_iterations_odd_large. Qed.

Lemma iteration_count_rounds_up_witness :
  105 + 2 * 1 <= 1023 /\
  num_iterations (105 + 2 * 1) = Ok (6369051672525773 * 2 ^ Z.of_nat 1)%Z /\
  (Z.sqrt (2 ^ Z.of_nat (105 + 2 * 1)) < 6369051672525773 * 2 ^ Z.of_nat 1)%Z.
Proof.
  split; [lia|]. apply (iteration_count_rounds_up 1). lia.
Defined.

(** X14.  For [1 <= n <= 1023] positions the driver always runs at least one
    iteration, so a target whose encoding has a '0' at an index [>= n] makes
    it raise [IndexError] inside the first oracle call. *)
Theorem grover_search_index_error (n : nat) (t : Z) (i : nat) :
  1 <= n <= 1023 ->
  n <= i -> nth_error (Py.format_0b t n) i = Some "0"%char ->
  (exists k : Z, num_iterations n = Ok k /\ (1 <= k)%Z) /\
  snd (grover_search t n) = Raise IndexError.
Proof.
  intros [Hn Hm] Hi Hc.
  destruct (num_iterations_positive n Hm) as [k [Hk Hpos]].
  split; [exists k; split; assumption|].
  set (c1 := mkQC n n (map Gate (map H (seq 0 n)))).
  assert (Ho : snd (oracle (Py.range n) t c1) = Raise IndexError).
  { destruct (oracle_result n (Py.range n) t c1 Hn) as [[Ho _]|[_ [Hall _]]];
      [left; reflexivity | simpl; lia | exact Ho |].
    specialize (Hall i Hc). lia. }
  destruct (oracle (Py.range n) t c1) as [c2 [[]|e]] eqn:Eo; cbn [snd] in Ho;
    [discriminate|]. injection Ho as ->.
  rewrite (grover_search_first_oracle n t c2 IndexError); [reflexivity | lia | exact Eo].
Qed.

Lemma grover_search_index_error_witness :
  1 <= 3 <= 1023 /\ 3 <= 3 /\
  nth_error (Py.format_0b 8 3) 3 = Some "0"%char /\
  (exists k : Z, num_iterations 3 = Ok k /\ (1 <= k)%Z) /\
  snd (grover_search 8 3) = Raise IndexError.
Proof.
  split; [lia|]. split; [lia|]. split; [reflexivity|].
  apply (grover_search_index_error 3 8 3); [lia | lia | reflexivity].
Defined.

(** X15.  With two positions the count the driver computes is
    [floor (sqrt 4) = 2], one more than the search needs: the builders
    called in the driver's order on the list of positions 0, 1 return, and
    over the reals the gates they append take the all-zero state to
    amplitude 1/2 on the target and -1/2 on the three other states, so every
    outcome, the target included, has squared amplitude 1/4. *)
Theorem grover_search_2_uniform (t : Z) (s : basis) :
  (0 <= t < 4)%Z -> length s = 2 ->
  num_iterations 2 = Ok 2%Z /\
  (h_all (Py.List [0; 1]) ;;;
   for_range 2 (oracle (Py.List [0; 1]) t ;;; diffuser (Py.List [0; 1])))
    (new_circuit 2 2)
  = (mkQC 2 2 (map Gate (grover_gates 2 t 2)), Ok tt) /\
  run (grover_gates 2 t 2) (delta R_amp 2) s
  = (if list_eq_dec bool_dec s (encoding 2 t) then 1 / 2 else - (1 / 2))%R /\
  (run (grover_gates 2 t 2) (delta R_amp 2) s
   * run (grover_gates 2 t 2) (delta R_amp 2) s = 1 / 4)%R.
Proof.
  intros Ht Hs.
  assert (Hamp : run (grover_gates 2 t 2) (delta R_amp 2) s
                 = (if list_eq_dec bool_dec s (encoding 2 t)
                    then 1 / 2 else - (1 / 2))%R).
  { rewrite (run_grover_gates_2 R_amp t s Hs). unfold two_valued.
    pose proof half_R as Hh.
    destruct (list_eq_dec bool_dec s (encoding 2 t));
      cbn [pow R_amp amul aadd aopp aone inv_sqrt2]; lra. }
  split; [reflexivity|]. split; [|split].
  - apply (grover_rounds_list 2 t 2 (new_circuit 2 2)); [lia | simpl; lia | cbn; lia].
  - exact Hamp.
  - rewrite Hamp. destruct (list_eq_dec bool_dec s (encoding 2 t)); lra.
Qed.

Lemma grover_search_2_uniform_witness :
  let s := [true; false] in
  (0 <= 2 < 4)%Z /\ length s = 2 /\
  num_iterations 2 = Ok 2%Z /\
  (h_all (Py.List [0; 1]) ;;;
   for_range 2 (oracle (Py.List [0; 1]) 2 ;;; diffuser (Py.List [0; 1])))
    (new_circuit 2 2)
  = (mkQC 2 2 (map Gate (grover_gates 2 2 2)), Ok tt) /\
  run (grover_gates 2 2 2) (delta R_amp 2) s
  = (if list_eq_dec bool_dec s (encoding 2 2) then 1 / 2 else - (1 / 2))%R /\
  (run (grover_gates 2 2 2) (delta R_amp 2) s
   * run (grover_gates 2 2 2) (delta R_amp 2) s = 1 / 4)%R.
Proof.
  intros s. split; [lia|]. split; [reflexivity|].
  apply (grover_search_2_uniform 2 s); [lia | reflexivity].
Defined.

(** X16.  The driver never returns.  Whatever the target and the number of
    positions, it ends with an exception: [CircuitError] at its own first
    call when there is no position; [OverflowError] from 1024 positions on;
    otherwise inside the first oracle call, [IndexError] when the encoding
    has a '0' at an index beyond the register, else [CircuitError] on one
    position and [TypeError] on two or more, where the multi-controlled X
    is given a slice of [range(n)]. *)
Theorem grover_search_always_raises (t : Z) (n : nat) :
  snd (grover_search t n) = Raise (driver_exception t n).
Proof.
  unfold driver_exception.
  destruct (Nat.eqb_spec n 0) as [->|Hn0]; [reflexivity|].
  destruct (Nat.leb_spec 1024 n) as [Hbig|Hsmall].
  { rewrite grover_search_overflow by exact Hbig. reflexivity. }
  set (c1 := mkQC n n (map Gate (map H (seq 0 n)))).
  assert (Hend : forall e, snd (oracle (Py.range n) t c1) = Raise e ->
                 snd (grover_search t n) = Raise e).
  { intros e He.
    destruct (oracle (Py.range n) t c1) as [c2 [[]|e']] eqn:Eo; cbn [snd] in He;
      [discriminate|]. injection He as ->.
    rewrite (grover_search_first_oracle n t c2 e); [reflexivity | lia | exact Eo]. }
  destruct (oracle_result n (Py.range n) t c1) as [[Ho [_ Hex]]|[_ [Hall [H1 [Hr _]]]]];
    [lia | left; reflexivity | simpl; lia | |].
  - replace (wide_zero t n) with true
      by (symmetry; apply wide_zero_spec; destruct Hex as [i [Hi Hl]];
          exists i; split; assumption).
    apply Hend, Ho.
  - replace (wide_zero t n) with false.
    + destruct (Nat.eqb_spec n 1) as [En|En]; apply Hend.
      * apply H1, En.
      * apply Hr; [lia | reflexivity].
    + symmetry. apply not_true_is_false. intros Hw.
      apply wide_zero_spec in Hw. destruct Hw as [i [Hl Hi]].
      specialize (Hall i Hi). lia.
Qed.

(** X17.  A list register with a position that the circuit does not have
    makes the oracle raise [CircuitError], for every in-range target: at an
    X or at the H when that position is used there, and at the latest at the
    multi-controlled X, which is given every position of the register. *)
Theorem oracle_position_outside_circuit
  (qubits : list nat) (t : Z) (c : QuantumCircuit) :
  1 <= length qubits -> (0 <= t < 2 ^ Z.of_nat (length qubits))%Z ->
  (exists q, In q qubits /\ num_qubits c <= q) ->
  snd (oracle (Py.List qubits) t c) = Raise CircuitError.
Proof. apply oracle_outside_circuit. Qed.

Lemma oracle_position_outside_circuit_witness :
  let c := new_circuit 3 3 in
  1 <= length [4; 0; 2] /\ (0 <= 5 < 2 ^ Z.of_nat (length [4; 0; 2]))%Z /\
  (exists q, In q [4; 0; 2] /\ num_qubits c <= q) /\
  snd (oracle (Py.List [4; 0; 2]) 5 c) = Raise CircuitError.
Proof.
  intros c.
  assert (Hq : exists q, In q [4; 0; 2] /\ num_qubits c <= q).
  { exists 4. split; [left; reflexivity | simpl; lia]. }
  split; [simpl; lia|]. split; [cbn; lia|]. split; [exact Hq|].
  apply (oracle_position_outside_circuit [4; 0; 2] 5 c);
    [simpl; lia | cbn; lia | exact Hq].
Defined.
